(** * Ants vs. Some Bees: the simulation engine of [src/game.ts]

    A shallow embedding of the classes [Place], [Hive], [AntColony] and
    [AntGame], and the properties of the engine proved on it.

    Objects are kept in a store: every [Place] lives in a heap (a list, the
    address of a place is its index), so that the [exit] / [entrance] links and
    the aliasing between the colony's grid, its entrance array and the links are
    the ones of the program.  Insects are references with an identity; their
    mutable fields live in maps keyed by that identity. *)

From Stdlib Require Import ZArith QArith Qround Ascii.
From stdpp Require Import gmap strings list fin_maps pretty.

Close Scope Q_scope.
Open Scope Z_scope.
Open Scope nat_scope.

(** ** Insects (the part of [./ants] the engine relies on) *)

(** Modelled from the spec: the module [./ants] is not part of the sources.
    The defender variants are "grower, thrower, eater, scuba, guard"; the class
    of an object is fixed when it is created, which is what [instanceof]
    observes. *)
Inductive AntClass := GrowerAnt | ThrowerAnt | EaterAnt | ScubaAnt | GuardAnt.

Global Instance AntClass_eq_dec : EqDecision AntClass.
Proof. solve_decision. Defined.

(** Modelled from the spec: "each defender has a food cost"; an [Ant] reference
    is the identity of the object together with what its class fixes. *)
Record Ant := mkAnt { ant_id : nat; ant_class : AntClass; getFoodCost : Z }.

Global Instance Ant_eq_dec : EqDecision Ant.
Proof. solve_decision. Defined.

(** Modelled from the spec: "a current boost (optional, single-valued - last
    applied boost wins, no stacking)" and the back-reference to the location
    the insect is bound to. *)
Record AntState := mkAntState { boost : option string; ant_place : option nat }.

(** A bee is its identity. *)
Abbreviation Bee := nat (only parsing).

(** Modelled from the spec: "each invader has armor/damage magnitudes and a
    back-reference to its current location". *)
Record BeeState := mkBeeState { bee_armor : Z; bee_damage : Z; bee_place : option nat }.

(** Modelled from the spec: an insect is a defender or an invader, which is
    what [insect instanceof Ant] and [insect instanceof Bee] tell apart. *)
Inductive Insect := AnAnt (a : Ant) | ABee (b : Bee).

Definition instanceofGuardAnt (a : Ant) : bool := bool_decide (ant_class a = GuardAnt).

(** [x instanceof ScubaAnt], where [x] may be [undefined]. *)
Definition instanceofScubaAnt (x : option Ant) : bool :=
  match x with
  | Some a => bool_decide (ant_class a = ScubaAnt)
  | None => false
  end.

(** ** Places and the store *)

Record Place := mkPlace {
  name : string;
  water : bool;
  exit : option nat;
  entrance : option nat;
  ant : option Ant;
  guard : option Ant;
  bees : list Bee
}.

Record World := mkWorld {
  heap : list Place;
  antStore : gmap nat AntState;
  beeStore : gmap nat BeeState;
  nextBee : nat
}.

(** [new Place(name, water, exit)]: the fields [ant] and [guard] start
    undefined, [bees] starts empty and [entrance] is not passed. *)
Definition new_Place (n : string) (wtr : bool) (ex : option nat) : Place :=
  mkPlace n wtr ex None None None [].

(** Reading [this]: a reference always denotes a live object, so the default
    is only there to make the accessor total. *)
Definition getPlace (w : World) (p : nat) : Place :=
  default (new_Place "" false None) (heap w !! p).

Definition putPlace (p : nat) (pl : Place) (w : World) : World :=
  mkWorld (<[p := pl]> (heap w)) (antStore w) (beeStore w) (nextBee w).

Definition alloc (pl : Place) (w : World) : nat * World :=
  (length (heap w), mkWorld (heap w ++ [pl]) (antStore w) (beeStore w) (nextBee w)).

Definition set_entrance (e : option nat) (pl : Place) : Place :=
  mkPlace (name pl) (water pl) (exit pl) e (ant pl) (guard pl) (bees pl).
Definition set_ant (a : option Ant) (pl : Place) : Place :=
  mkPlace (name pl) (water pl) (exit pl) (entrance pl) a (guard pl) (bees pl).
Definition set_guard (g : option Ant) (pl : Place) : Place :=
  mkPlace (name pl) (water pl) (exit pl) (entrance pl) (ant pl) g (bees pl).
Definition set_bees (bs : list Bee) (pl : Place) : Place :=
  mkPlace (name pl) (water pl) (exit pl) (entrance pl) (ant pl) (guard pl) bs.

Definition antState (w : World) (a : Ant) : AntState :=
  default (mkAntState None None) (antStore w !! ant_id a).

Definition beeState (w : World) (b : Bee) : BeeState :=
  default (mkBeeState 0 0 None) (beeStore w !! b).

(** Modelled from the spec: [ant.setPlace(place)] of [./ants] sets the
    back-reference of the defender to its location. *)
Definition Ant_setPlace (a : Ant) (p : option nat) (w : World) : World :=
  mkWorld (heap w)
          (<[ant_id a := mkAntState (boost (antState w a)) p]> (antStore w))
          (beeStore w) (nextBee w).

(** Modelled from the spec: [ant.setBoost(boost)] of [./ants] sets the current
    boost of the defender, replacing the one it had. *)
Definition Ant_setBoost (a : Ant) (b : string) (w : World) : World :=
  mkWorld (heap w)
          (<[ant_id a := mkAntState (Some b) (ant_place (antState w a))]> (antStore w))
          (beeStore w) (nextBee w).

(** Modelled from the spec: [bee.setPlace(place)] of [./ants] sets the
    back-reference of the invader to its location. *)
Definition Bee_setPlace (b : Bee) (p : option nat) (w : World) : World :=
  mkWorld (heap w) (antStore w)
          (<[b := mkBeeState (bee_armor (beeState w b)) (bee_damage (beeState w b)) p]>
             (beeStore w))
          (nextBee w).

(** A call either returns, or throws (a [TypeError] on [undefined]); in both
    cases the store is the one reached so far. *)
Inductive Res (A : Type) :=
| Ret (a : A) (w : World)
| Throw (w : World).
Arguments Ret {A} a w.
Arguments Throw {A} w.

Definition bindR {A B} (m : Res A) (k : A → World → Res B) : Res B :=
  match m with
  | Ret a w => k a w
  | Throw w => Throw w
  end.

(** ** class Place *)

Definition Place_setEntrance (p e : nat) (w : World) : World :=
  putPlace p (set_entrance (Some e) (getPlace w p)) w.

Definition Place_isWater (p : nat) (w : World) : bool := water (getPlace w p).

Definition Place_getAnt (p : nat) (w : World) : option Ant :=
  match guard (getPlace w p) with
  | Some g => Some g
  | None => ant (getPlace w p)
  end.

Definition Place_getGuardedAnt (p : nat) (w : World) : option Ant := ant (getPlace w p).

Definition Place_getBees (p : nat) (w : World) : list Bee := bees (getPlace w p).

(** The loop of [getClosestBee]: [n] bounds the iterations left, which the
    test [dist <= maxDistance] makes finite; [p] is [undefined] at the end of
    the chain. *)
Fixpoint getClosestBee_loop (n : nat) (w : World) (p : option nat) (dist maxDistance minDistance : Z)
  : option Bee :=
  match n with
  | O => None
  | S n' =>
    match p with
    | Some a =>
      if (dist <=? maxDistance)%Z then
        if (minDistance <=? dist)%Z && negb (Nat.eqb (length (bees (getPlace w a))) 0)
        then head (bees (getPlace w a))
        else getClosestBee_loop n' w (entrance (getPlace w a)) (dist + 1)%Z maxDistance minDistance
      else None
    | None => None
    end
  end.

(** [dist] runs over 0, 1, ..., so the body is entered at most
    [maxDistance + 1] times. *)
Definition Place_getClosestBee (p : nat) (maxDistance minDistance : Z) (w : World) : option Bee :=
  getClosestBee_loop (S (Z.to_nat maxDistance)) w (Some p) 0%Z maxDistance minDistance.

Definition Place_addAnt (p : nat) (a : Ant) (w : World) : bool * World :=
  if instanceofGuardAnt a then
    match guard (getPlace w p) with
    | None => (true, Ant_setPlace a (Some p) (putPlace p (set_guard (Some a) (getPlace w p)) w))
    | Some _ => (false, w)
    end
  else
    match ant (getPlace w p) with
    | None => (true, Ant_setPlace a (Some p) (putPlace p (set_ant (Some a) (getPlace w p)) w))
    | Some _ => (false, w)
    end.

Definition Place_removeAnt (p : nat) (w : World) : option Ant * World :=
  match guard (getPlace w p) with
  | Some g => (Some g, putPlace p (set_guard None (getPlace w p)) w)
  | None => (ant (getPlace w p), putPlace p (set_ant None (getPlace w p)) w)
  end.

Definition Place_addBee (p : nat) (b : Bee) (w : World) : World :=
  Bee_setPlace b (Some p) (putPlace p (set_bees (bees (getPlace w p) ++ [b]) (getPlace w p)) w).

(** [Array.prototype.indexOf], with [None] for -1. *)
Fixpoint indexOf (b : Bee) (l : list Bee) : option nat :=
  match l with
  | [] => None
  | x :: l' => if Nat.eqb x b then Some 0 else S <$> indexOf b l'
  end.

Definition Place_removeBee (p : nat) (b : Bee) (w : World) : World :=
  match indexOf b (bees (getPlace w p)) with
  | Some index =>
      Bee_setPlace b None (putPlace p (set_bees (delete index (bees (getPlace w p))) (getPlace w p)) w)
  | None => w
  end.

Definition Place_removeAllBees (p : nat) (w : World) : World :=
  let w1 := foldl (λ acc b, Bee_setPlace b None acc) w (bees (getPlace w p)) in
  putPlace p (set_bees [] (getPlace w1 p)) w1.

Definition Place_exitBee (p : nat) (b : Bee) (w : World) : Res unit :=
  let w1 := Place_removeBee p b w in
  match exit (getPlace w1 p) with
  | Some e => Ret tt (Place_addBee e b w1)
  | None => Throw w1
  end.

Definition Place_removeInsect (p : nat) (i : Insect) (w : World) : World :=
  match i with
  | AnAnt _ => snd (Place_removeAnt p w)
  | ABee b => Place_removeBee p b w
  end.

Definition Place_act (p : nat) (w : World) : World :=
  if water (getPlace w p) then
    let w1 := match guard (getPlace w p) with
              | Some _ => snd (Place_removeAnt p w)
              | None => w
              end in
    if negb (instanceofScubaAnt (ant (getPlace w1 p)))
    then snd (Place_removeAnt p w1)
    else w1
  else w.

(** ** class Hive *)

Record Hive := mkHive {
  hive_place : nat;            (* the [Place] part of the object *)
  beeArmor : Z;
  beeDamage : Z;
  waves : gmap Z (list Bee)
}.

(** [new Hive(beeArmor, beeDamage)]: the place part is [new Place('Hive')]
    and no wave is scheduled. *)
Definition new_Hive (armor damage : Z) (w : World) : Hive * World :=
  let '(p, w') := alloc (new_Place "Hive" false None) w in
  (mkHive p armor damage ∅, w').

(** Modelled from the spec: [new Bee(armor, damage, place)] of [./ants]
    creates an invader with a fresh identity and the given fields. *)
Definition new_Bee (armor damage : Z) (p : nat) (w : World) : Bee * World :=
  (nextBee w,
   mkWorld (heap w) (antStore w)
           (<[nextBee w := mkBeeState armor damage (Some p)]> (beeStore w))
           (S (nextBee w))).

Fixpoint addWave_loop (n : nat) (h : Hive) (wave : list Bee) (w : World) : list Bee * World :=
  match n with
  | O => (wave, w)
  | S n' =>
    let '(bee, w1) := new_Bee (beeArmor h) (beeDamage h) (hive_place h) w in
    let w2 := Place_addBee (hive_place h) bee w1 in
    addWave_loop n' h (wave ++ [bee]) w2
  end.

Definition Hive_addWave (attackTurn : Z) (numBees : nat) (h : Hive) (w : World) : Hive * World :=
  let '(wave, w') := addWave_loop numBees h [] w in
  (mkHive (hive_place h) (beeArmor h) (beeDamage h) (<[attackTurn := wave]> (waves h)), w').

(** [array[i]] for a number [i]: [undefined] outside the array. *)
Definition array_get {A} (l : list A) (i : Z) : option A :=
  if (i <? 0)%Z then None else l !! Z.to_nat i.

(** [Math.floor(Math.random() * n)], for the value [r] that [Math.random()]
    returned. *)
Definition randIndex (r : Q) (n : nat) : Z := Qfloor (r * inject_Z (Z.of_nat n)).

(** The body of the [forEach] of [invade], for one bee. *)
Definition invade_bee (h : Hive) (entrances : list nat) (r : Q) (bee : Bee) (w : World) : Res unit :=
  let w1 := Place_removeBee (hive_place h) bee w in
  let randEntrance := randIndex r (length entrances) in
  match array_get entrances randEntrance with
  | Some e => Ret tt (Place_addBee e bee w1)
  | None => Throw w1
  end.

(** [rnd k] is what the [k]-th call of [Math.random()] returns. *)
Fixpoint invade_forEach (h : Hive) (entrances : list nat) (rnd : nat → Q) (k : nat)
         (wave : list Bee) (w : World) : Res unit :=
  match wave with
  | [] => Ret tt w
  | bee :: rest =>
    bindR (invade_bee h entrances (rnd k) bee w)
          (λ _ w', invade_forEach h entrances rnd (S k) rest w')
  end.

(** ** class AntColony *)

(** What the inventory object [boosts] holds under a name: a count, or a
    value that is not a number.  The object is a plain object, so besides the
    counts that the engine stores it answers, for the names that every object
    inherits from [Object.prototype], with a function (with the prototype
    itself for [__proto__]), and [+ 1] turns such a value into a string.  The
    engine only compares these values with [< 1] and adds 1 to them, and for
    all of them [v < 1] is false (it is [NaN < 1]) and [v + 1] is a string,
    again not a number; [NotANumber] stands for any of them, and for [NaN]. *)
Inductive BoostValue := Count (n : Z) | NotANumber.

(** The function properties that every plain object inherits from
    [Object.prototype]. *)
Definition Object_prototype_methods : list string :=
  ["constructor"; "__defineGetter__"; "__defineSetter__"; "hasOwnProperty";
   "__lookupGetter__"; "__lookupSetter__"; "isPrototypeOf"; "propertyIsEnumerable";
   "toString"; "valueOf"; "toLocaleString"].

(** [boosts[b]], [None] being [undefined]: [__proto__] is the accessor of
    [Object.prototype] and answers the prototype; any other name answers the
    own property when there is one, else the inherited function when the name
    is one of [Object.prototype]. *)
Definition boosts_get (m : gmap string BoostValue) (b : string) : option BoostValue :=
  if String.eqb b "__proto__" then Some NotANumber
  else match m !! b with
       | Some v => Some v
       | None => if bool_decide (b ∈ Object_prototype_methods) then Some NotANumber else None
       end.

(** [boosts[b] = v], for a [v] that is a number or a string: the setter of
    [__proto__] ignores it; under any other name it becomes an own property. *)
Definition boosts_set (b : string) (v : BoostValue) (m : gmap string BoostValue)
  : gmap string BoostValue :=
  if String.eqb b "__proto__" then m else <[b := v]> m.

(** [v + 1]: a count gives the next count; a function or a string gives a
    string, and [undefined] gives [NaN]. *)
Definition plus_one (v : option BoostValue) : BoostValue :=
  match v with
  | Some (Count n) => Count (n + 1)
  | _ => NotANumber
  end.

(** The guard [boosts[b] === undefined || boosts[b] < 1]. *)
Definition boost_unavailable (v : option BoostValue) : bool :=
  match v with
  | None => true
  | Some (Count n) => (n <? 1)%Z
  | Some NotANumber => false
  end.

Record AntColony := mkAntColony {
  food : Z;
  places : list (list nat);
  beeEntrances : list nat;
  queenPlace : nat;
  boosts : gmap string BoostValue
}.

(** [Hive.invade], stated here because it reads the entrances of the
    colony. *)
Definition Hive_invade (h : Hive) (c : AntColony) (currentTurn : Z) (rnd : nat → Q) (w : World)
  : Res (list Bee) :=
  match waves h !! currentTurn with
  | Some wave =>
      bindR (invade_forEach h (beeEntrances c) rnd 0 wave w) (λ _ w', Ret wave w')
  | None => Ret [] w
  end.

(** [moatFrequency !== 0 && (step+1) % moatFrequency === 0]; [%] is the
    remainder of the truncated division. *)
Definition typeName_of (moatFrequency : Z) (step : nat) : string :=
  if negb (moatFrequency =? 0)%Z && (Z.rem (Z.of_nat step + 1) moatFrequency =? 0)%Z
  then "water" else "tunnel".

(** The inner loop of the constructor, [n] steps from [step] on.  The
    assignment [this.places[tunnel][step] = curr] extends the row by one
    element, [step] being its length at that point. *)
Fixpoint tunnel_loop (n : nat) (tunnel step : nat) (moatFrequency : Z)
         (curr : nat) (row : list nat) (w : World) : nat * list nat * World :=
  match n with
  | O => (curr, row, w)
  | S n' =>
    let typeName := typeName_of moatFrequency step in
    let prev := curr in
    let locationId := pretty tunnel +:+ "," +:+ pretty step in
    let '(curr', w1) :=
      alloc (new_Place (typeName +:+ "[" +:+ locationId +:+ "]")
                       (String.eqb typeName "water") (Some prev)) w in
    let w2 := Place_setEntrance prev curr' w1 in
    tunnel_loop n' tunnel (S step) moatFrequency curr' (row ++ [curr']) w2
  end.

(** The outer loop, [n] tunnels from [tunnel] on; every tunnel starts at the
    queen's place. *)
Fixpoint tunnels_loop (n : nat) (tunnel tunnelLength : nat) (moatFrequency : Z) (queen : nat)
         (grid : list (list nat)) (entrances : list nat) (w : World)
  : list (list nat) * list nat * World :=
  match n with
  | O => (grid, entrances, w)
  | S n' =>
    let '(curr, row, w1) := tunnel_loop tunnelLength tunnel 0 moatFrequency queen [] w in
    tunnels_loop n' (S tunnel) tunnelLength moatFrequency queen
                 (grid ++ [row]) (entrances ++ [curr]) w1
  end.

Definition initial_boosts : gmap string BoostValue :=
  <["FlyingLeaf" := Count 1]> (<["StickyLeaf" := Count 1]> (<["IcyLeaf" := Count 1]>
    (<["BugSpray" := Count 0]> ∅))).

(** [new AntColony(startingFood, numTunnels, tunnelLength, moatFrequency)] *)
Definition new_AntColony (startingFood : Z) (numTunnels tunnelLength : nat) (moatFrequency : Z)
           (w : World) : AntColony * World :=
  let '(queen, w0) := alloc (new_Place "Ant Queen" false None) w in
  let '(grid, entrances, w1) :=
    tunnels_loop numTunnels 0 tunnelLength moatFrequency queen [] [] w0 in
  (mkAntColony startingFood grid entrances queen initial_boosts, w1).

Definition set_food (f : Z) (c : AntColony) : AntColony :=
  mkAntColony f (places c) (beeEntrances c) (queenPlace c) (boosts c).
Definition set_boosts (b : gmap string BoostValue) (c : AntColony) : AntColony :=
  mkAntColony (food c) (places c) (beeEntrances c) (queenPlace c) b.

Definition AntColony_increaseFood (amount : Z) (c : AntColony) : AntColony :=
  set_food (food c + amount)%Z c.

Definition AntColony_queenHasBees (c : AntColony) (w : World) : bool :=
  negb (Nat.eqb (length (Place_getBees (queenPlace c) w)) 0).

Definition AntColony_addBoost (b : string) (c : AntColony) : AntColony :=
  let c1 := match boosts_get (boosts c) b with
            | None => set_boosts (boosts_set b (Count 0) (boosts c)) c
            | Some _ => c
            end in
  set_boosts (boosts_set b (plus_one (boosts_get (boosts c1) b)) (boosts c1)) c1.

(** The result is the reason of the failure, [None] for [undefined]. *)
Definition AntColony_deployAnt (a : Ant) (place : nat) (c : AntColony) (w : World)
  : option string * AntColony * World :=
  if (getFoodCost a <=? food c)%Z then
    let '(success, w') := Place_addAnt place a w in
    if success then (None, set_food (food c - getFoodCost a)%Z c, w')
    else (Some "tunnel already occupied", c, w')
  else (Some "not enough food", c, w).

Definition AntColony_removeAnt (place : nat) (w : World) : World :=
  snd (Place_removeAnt place w).

Definition AntColony_applyBoost (b : string) (place : nat) (c : AntColony) (w : World)
  : option string * AntColony * World :=
  if boost_unavailable (boosts_get (boosts c) b) then (Some "no such boost", c, w)
  else match Place_getAnt place w with
       | None => (Some "no Ant at location", c, w)
       | Some a => (None, c, Ant_setBoost a b w)
       end.

(** The places of the grid in the order of the two nested loops. *)
Definition all_places (c : AntColony) : list nat := concat (places c).

Definition AntColony_getAllAnts (c : AntColony) (w : World) : list Ant :=
  omap (λ p, Place_getAnt p w) (all_places c).

Definition AntColony_getAllBees (c : AntColony) (w : World) : list Bee :=
  foldl (λ acc p, acc ++ Place_getBees p w) [] (all_places c).

Definition AntColony_placesAct (c : AntColony) (w : World) : World :=
  foldl (λ acc p, Place_act p acc) w (all_places c).


(** ** The turn phases and class AntGame *)

Record AntGame := mkAntGame { turn : Z; colony : AntColony; hive : Hive }.

(** [new AntGame(colony, hive)] *)
Definition new_AntGame (c : AntColony) (h : Hive) : AntGame := mkAntGame 0 c h.

Definition AntGame_getTurn (g : AntGame) : Z := turn g.

(** [Some false]: the bees reached the queen; [Some true]: no bee is left;
    [None]: [undefined], the game continues. *)
Definition AntGame_gameIsWon (g : AntGame) (w : World) : option bool :=
  if AntColony_queenHasBees (colony g) w then Some false
  else if Nat.eqb (length (AntColony_getAllBees (colony g) w)
                   + length (Place_getBees (hive_place (hive g)) w)) 0
       then Some true
       else None.




Section Engine.

(** What the engine calls in [./ants], which is not part of the sources:
    the turn action of a defender, [ant.act(colony)], which receives the
    colony; the turn action of an invader, [bee.act()]; and the constructors
    [new GrowerAnt()], ..., [new GuardAnt()].  None of them is handed the
    [AntGame] object. *)
Variable Ant_act : Ant → AntColony → World → AntColony * World.
Variable Bee_act : Bee → World → World.
Variable new_Ant : AntClass → World → Ant * World.

(** The evaluation of [this.colony.getPlaces()[coords[0]][coords[1]]] for
    [coords = placeCoordinates.split(',')], by the property lookup of the
    language: [None] when it throws (the first lookup is [undefined]),
    [Some None] when it yields a value that is not a place, and
    [Some (Some p)] for the place [p] of the grid. *)
Variable lookupPlace : string → list (list nat) → option (option nat).








End Engine.

(** ** Vocabulary of the statements *)

(** The slot a defender goes to: the guard slot for the guard variant, the
    regular slot for the others. *)
Definition slot_of (a : Ant) (pl : Place) : option Ant :=
  if instanceofGuardAnt a then guard pl else ant pl.

Definition bind_slot (a : Ant) (pl : Place) : Place :=
  if instanceofGuardAnt a then set_guard (Some a) pl else set_ant (Some a) pl.

(** A sequence of [addAnt] calls on one place, with the result of each. *)
Fixpoint addAnts (p : nat) (l : list Ant) (w : World) : list bool * World :=
  match l with
  | [] => ([], w)
  | a :: l' =>
    let '(ok, w1) := Place_addAnt p a w in
    let '(oks, w2) := addAnts p l' w1 in
    (ok :: oks, w2)
  end.

(** The defenders of a sequence of calls whose call returned [true]. *)
Fixpoint accepted (l : list Ant) (oks : list bool) : list Ant :=
  match l, oks with
  | a :: l', ok :: oks' => if ok then a :: accepted l' oks' else accepted l' oks'
  | _, _ => []
  end.

Definition occupancy (slot : option Ant) : nat :=
  match slot with Some _ => 1 | None => 0 end.

(** The place [d] hops up the chain of [entrance] links from [p]. *)
Fixpoint hop (w : World) (p : nat) (d : nat) : option nat :=
  match d with
  | O => Some p
  | S d' => match entrance (getPlace w p) with
            | Some q => hop w q d'
            | None => None
            end
  end.

(** The place at distance [d] of [p] is within the bounds and holds a bee. *)
Definition qualifies (w : World) (p : nat) (maxDistance minDistance : Z) (d : nat) : Prop :=
  (minDistance ≤ Z.of_nat d ≤ maxDistance)%Z ∧
  ∃ q, hop w p d = Some q ∧ bees (getPlace w q) ≠ [].

(** The number of invaders in the places of the grid and in the hive. *)
Definition total_invaders (g : AntGame) (w : World) : nat :=
  sum_list (map (λ p, length (bees (getPlace w p))) (all_places (colony g)))
  + length (bees (getPlace w (hive_place (hive g)))).

(** The value that [addBoost] leaves under the name, from the one it finds. *)
Definition added (v : option BoostValue) : BoostValue :=
  match v with
  | Some (Count n) => Count (n + 1)
  | Some NotANumber => NotANumber
  | None => Count 1
  end.

(** The count of a boost, 0 for a name under which the inventory holds no
    count. *)
Definition boostCount (c : AntColony) (b : string) : Z :=
  match boosts_get (boosts c) b with
  | Some (Count n) => n
  | _ => 0%Z
  end.


(** The place of the grid at a tunnel and a step. *)
Definition place_at (c : AntColony) (tunnel step : nat) : option nat :=
  match places c !! tunnel with
  | Some row => row !! step
  | None => None
  end.

(** The place that the constructor creates for a tunnel and a step, with the
    links it ends up with. *)
Definition cell (tunnel step : nat) (moatFrequency : Z) (ex : nat) (en : option nat) : Place :=
  set_entrance en
    (new_Place (typeName_of moatFrequency step +:+ "[" +:+ (pretty tunnel +:+ "," +:+ pretty step) +:+ "]")
               (String.eqb (typeName_of moatFrequency step) "water") (Some ex)).

(** The spec's reading of the links of a grid: every place but the first of
    its tunnel has an [entrance]. *)
Definition entrance_defined_except_first (c : AntColony) (w : World) : Prop :=
  ∀ tunnel step a pl,
    place_at c tunnel step = Some a → heap w !! a = Some pl → step ≠ 0 →
    entrance pl ≠ None.

(** A store with no object. *)
Definition empty_world : World := mkWorld [] ∅ ∅ 0.

(** A list of bees without the first occurrence of [b], which is what
    [removeBee] leaves of the array of a place. *)
Definition remove_first (b : Bee) (l : list Bee) : list Bee :=
  match indexOf b l with
  | Some index => delete index l
  | None => l
  end.

(** The spec's reading of [invade] for a turn that has a wave: the call
    returns the wave. *)
Definition invade_returns_wave (h : Hive) (c : AntColony) (t : Z) (rnd : nat → Q) (w : World)
  : Prop :=
  ∃ wave w', waves h !! t = Some wave ∧ Hive_invade h c t rnd w = Ret wave w'.


(** ** Example states *)

(** A colony of one tunnel of two places, the second one water, and a hive:
    the queen's place is at address 0, the tunnel at 1 and 2, the hive at 3. *)
Definition ex_colony : AntColony := (new_AntColony 10 1 2 2 empty_world).1.
Definition ex_world : World :=
  (new_Hive 3 1 (new_AntColony 10 1 2 2 empty_world).2).2.
Definition ex_hive : Hive :=
  (new_Hive 3 1 (new_AntColony 10 1 2 2 empty_world).2).1.

Definition ex_thrower : Ant := mkAnt 0 ThrowerAnt 4.
Definition ex_guard : Ant := mkAnt 1 GuardAnt 4.
Definition ex_eater : Ant := mkAnt 2 EaterAnt 4.
Definition ex_costly : Ant := mkAnt 3 ScubaAnt 50.

(** The same with a thrower at address 1, then also a guard there. *)
Definition ex_world_thrower : World := (Place_addAnt 1 ex_thrower ex_world).2.
Definition ex_world_guarded : World := (Place_addAnt 1 ex_guard ex_world_thrower).2.

(** The same with a guard and a thrower on the water place at address 2. *)
Definition ex_world_water : World :=
  (Place_addAnt 2 ex_guard (Place_addAnt 2 ex_thrower ex_world).2).2.

(** Two bees at address 2, none at address 1. *)
Definition ex_world_bees : World := Place_addBee 2 8 (Place_addBee 2 7 ex_world).

(** A colony without any tunnel, and a hive with one bee due at turn 0. *)
Definition bare_colony : AntColony := (new_AntColony 2 0 3 0 empty_world).1.
Definition bare_hive : Hive :=
  (Hive_addWave 0 1 (new_Hive 3 1 (new_AntColony 2 0 3 0 empty_world).2).1
                (new_Hive 3 1 (new_AntColony 2 0 3 0 empty_world).2).2).1.
Definition bare_world : World :=
  (Hive_addWave 0 1 (new_Hive 3 1 (new_AntColony 2 0 3 0 empty_world).2).1
                (new_Hive 3 1 (new_AntColony 2 0 3 0 empty_world).2).2).2.

(** The hive of the one-tunnel colony after [addWave(0,1).addWave(1,1)]. *)
Definition ex_hive_two_waves : Hive :=
  (Hive_addWave 1 1 (Hive_addWave 0 1 ex_hive ex_world).1 (Hive_addWave 0 1 ex_hive ex_world).2).1.
Definition ex_world_two_waves : World :=
  (Hive_addWave 1 1 (Hive_addWave 0 1 ex_hive ex_world).1 (Hive_addWave 0 1 ex_hive ex_world).2).2.

Definition zero_random : nat → Q := λ _, 0%Q.

(** ** Vocabulary of the further statements *)

(** What [act] leaves of a place: on water, no guard and no regular defender
    other than a [ScubaAnt]. *)
Definition washed (pl : Place) : Place :=
  if water pl
  then set_ant (if instanceofScubaAnt (ant pl) then ant pl else None) (set_guard None pl)
  else pl.

(** The arrays of bees and the back-references of the bees agree: no place
    lists a bee twice, and a bee that a place lists refers to that place. *)
Definition bees_consistent (w : World) : Prop :=
  ∀ p, NoDup (bees (getPlace w p)) ∧
       ∀ b, b ∈ bees (getPlace w p) → bee_place (beeState w b) = Some p.

(** All the counts of an inventory are at least zero. *)
Definition counts_nonneg (c : AntColony) : Prop :=
  map_Forall (λ _ v, match v with Count n => (0 ≤ n)%Z | NotANumber => True end) (boosts c).

(** A bee alone at address 1, with the back-reference that [addBee] sets. *)
Definition ex_world_one_bee : World := Place_addBee 1 7 ex_world.

(** Settles the integer comparisons of a goal that the hypotheses decide. *)
Ltac settle_leb :=
  repeat match goal with
         | |- context [(?a <=? ?b)%Z] =>
             first [ replace (a <=? b)%Z with true by (symmetry; apply Z.leb_le; lia)
                   | replace (a <=? b)%Z with false by (symmetry; apply Z.leb_gt; lia) ]
         end.

(** ** The store *)

Lemma getPlace_lookup (w : World) (p : nat) (pl : Place) :
  heap w !! p = Some pl → getPlace w p = pl.
Proof. intros H. unfold getPlace. by rewrite H. Qed.

Lemma heap_putPlace_eq (w : World) (p : nat) (pl : Place) :
  p < length (heap w) → heap (putPlace p pl w) !! p = Some pl.
Proof. intros H. simpl. by apply list_lookup_insert_eq. Qed.

Lemma heap_putPlace_ne (w : World) (p q : nat) (pl : Place) :
  p ≠ q → heap (putPlace p pl w) !! q = heap w !! q.
Proof. intros H. simpl. by apply list_lookup_insert_ne. Qed.

Lemma getPlace_putPlace_eq (w : World) (p : nat) (pl : Place) :
  p < length (heap w) → getPlace (putPlace p pl w) p = pl.
Proof. intros H. apply getPlace_lookup. by apply heap_putPlace_eq. Qed.

Lemma getPlace_putPlace_ne (w : World) (p q : nat) (pl : Place) :
  p ≠ q → getPlace (putPlace p pl w) q = getPlace w q.
Proof. intros H. unfold getPlace. by rewrite heap_putPlace_ne. Qed.

(** ** Place.addAnt, Place.removeAnt, Place.removeInsect, Place.act *)

Lemma Place_addAnt_free (p : nat) (a : Ant) (w : World) (pl : Place) :
  heap w !! p = Some pl → slot_of a pl = None →
  Place_addAnt p a w = (true, Ant_setPlace a (Some p) (putPlace p (bind_slot a pl) w)).
Proof.
  intros Hp Hs. unfold Place_addAnt, slot_of, bind_slot in *.
  rewrite (getPlace_lookup _ _ _ Hp).
  destruct (instanceofGuardAnt a); by rewrite Hs.
Qed.

Lemma Place_addAnt_taken (p : nat) (a : Ant) (w : World) (pl : Place) :
  heap w !! p = Some pl → slot_of a pl ≠ None →
  Place_addAnt p a w = (false, w).
Proof.
  intros Hp Hs. unfold Place_addAnt, slot_of in *.
  rewrite (getPlace_lookup _ _ _ Hp).
  destruct (instanceofGuardAnt a).
  - by destruct (guard pl).
  - by destruct (ant pl).
Qed.

Lemma heap_after_addAnt_free (p : nat) (a : Ant) (w : World) (pl : Place) :
  heap w !! p = Some pl →
  heap (Ant_setPlace a (Some p) (putPlace p (bind_slot a pl) w)) !! p = Some (bind_slot a pl).
Proof. intros Hp. simpl. apply list_lookup_insert_eq. by eapply lookup_lt_Some. Qed.

Lemma antState_after_setPlace (a : Ant) (q : option nat) (w : World) :
  ant_place (antState (Ant_setPlace a q w) a) = q.
Proof. unfold antState, Ant_setPlace. simpl. by rewrite lookup_insert_eq. Qed.

Lemma bind_slot_regular (a : Ant) (pl : Place) :
  ant (bind_slot a pl) = (if instanceofGuardAnt a then ant pl else Some a).
Proof. unfold bind_slot. by destruct (instanceofGuardAnt a). Qed.

Lemma bind_slot_guard (a : Ant) (pl : Place) :
  guard (bind_slot a pl) = (if instanceofGuardAnt a then Some a else guard pl).
Proof. unfold bind_slot. by destruct (instanceofGuardAnt a). Qed.

(** What a sequence of calls does to the two slots: a slot that holds a
    defender keeps it, and the calls that return [true] for a kind of slot
    are at most one, none when the slot was taken at the start. *)
Lemma addAnts_slots (p : nat) (l : list Ant) :
  ∀ (w : World) (pl : Place), heap w !! p = Some pl →
  ∃ pl', heap (addAnts p l w).2 !! p = Some pl' ∧
    (∀ a0, ant pl = Some a0 → ant pl' = Some a0) ∧
    (∀ g0, guard pl = Some g0 → guard pl' = Some g0) ∧
    length (filter (λ a, instanceofGuardAnt a = false) (accepted l (addAnts p l w).1))
      + occupancy (ant pl) = occupancy (ant pl') ∧
    length (filter (λ a, instanceofGuardAnt a = true) (accepted l (addAnts p l w).1))
      + occupancy (guard pl) = occupancy (guard pl') ∧
    length (addAnts p l w).1 = length l.
Proof.
  induction l as [|a l IH]; intros w pl Hp.
  - exists pl. simpl. repeat split; auto.
  - simpl. destruct (slot_of a pl) as [x|] eqn:Hs.
    + rewrite (Place_addAnt_taken p a w pl Hp) by (rewrite Hs; done).
      destruct (IH w pl Hp) as (pl' & H1 & H2 & H3 & H4 & H5 & H6).
      destruct (addAnts p l w) as [oks w2]. simpl in *.
      exists pl'. repeat split; auto.
    + rewrite (Place_addAnt_free p a w pl Hp Hs).
      pose proof (heap_after_addAnt_free p a w pl Hp) as Hp1.
      destruct (IH _ _ Hp1) as (pl' & H1 & H2 & H3 & H4 & H5 & H6).
      destruct (addAnts p l _) as [oks w2]. simpl in *.
      exists pl'. rewrite bind_slot_regular in H2, H4.
      rewrite bind_slot_guard in H3, H5.
      unfold slot_of in Hs.
      destruct (instanceofGuardAnt a) eqn:Hg; rewrite Hs in *;
        (repeat split; auto; try (intros; discriminate);
         rewrite ?filter_cons_True by exact Hg;
         rewrite ?filter_cons_False by (simpl; rewrite Hg; done);
         simpl in *; try lia; auto).
Qed.

(** C9: [addAnt] returns [true] exactly when the slot of the defender's kind
    is empty, and then binds the defender to the place; when the slot is
    taken it returns [false] and changes nothing.  Over any sequence of
    [addAnt] calls on a place, a slot that holds a defender keeps that very
    defender, and for each of the two slots the calls that succeed plus the
    defender already there are at most one. *)
Theorem addAnt_slot_exclusive (p : nat) (w : World) (pl : Place) :
  heap w !! p = Some pl →
  (∀ a, slot_of a pl = None →
        ∃ w', Place_addAnt p a w = (true, w') ∧
              heap w' !! p = Some (bind_slot a pl) ∧
              slot_of a (bind_slot a pl) = Some a ∧
              ant_place (antState w' a) = Some p) ∧
  (∀ a, slot_of a pl ≠ None → Place_addAnt p a w = (false, w)) ∧
  (∀ l, ∃ pl', heap (addAnts p l w).2 !! p = Some pl' ∧
        (∀ a0, ant pl = Some a0 → ant pl' = Some a0) ∧
        (∀ g0, guard pl = Some g0 → guard pl' = Some g0) ∧
        length (filter (λ a, instanceofGuardAnt a = false) (accepted l (addAnts p l w).1))
          + occupancy (ant pl) ≤ 1 ∧
        length (filter (λ a, instanceofGuardAnt a = true) (accepted l (addAnts p l w).1))
          + occupancy (guard pl) ≤ 1).
Proof.
  intros Hp. split; [|split].
  - intros a Hs. eexists. split; [by apply (Place_addAnt_free p a w pl)|].
    split; [by apply heap_after_addAnt_free|]. split.
    + unfold slot_of, bind_slot. by destruct (instanceofGuardAnt a).
    + apply antState_after_setPlace.
  - intros a Hs. by apply (Place_addAnt_taken p a w pl).
  - intros l. destruct (addAnts_slots p l w pl Hp) as (pl' & H1 & H2 & H3 & H4 & H5 & _).
    exists pl'. repeat split; auto.
    + rewrite H4. destruct (ant pl'); simpl; lia.
    + rewrite H5. destruct (guard pl'); simpl; lia.
Qed.

Lemma Place_removeAnt_guarded (p : nat) (w : World) (pl : Place) (g : Ant) :
  heap w !! p = Some pl → guard pl = Some g →
  Place_removeAnt p w = (Some g, putPlace p (set_guard None pl) w).
Proof.
  intros Hp Hg. unfold Place_removeAnt.
  rewrite (getPlace_lookup _ _ _ Hp). by rewrite Hg.
Qed.

Lemma Place_removeAnt_unguarded (p : nat) (w : World) (pl : Place) :
  heap w !! p = Some pl → guard pl = None →
  Place_removeAnt p w = (ant pl, putPlace p (set_ant None pl) w).
Proof.
  intros Hp Hg. unfold Place_removeAnt.
  rewrite (getPlace_lookup _ _ _ Hp). by rewrite Hg.
Qed.

(** C10: on a place that holds a guard and a regular defender,
    [removeInsect] called with the regular defender empties the guard slot and
    leaves the regular defender, the bees, the other places and the insects as
    they were; it does the same for any other ant passed to it. *)
Theorem removeInsect_ant_takes_guard (p : nat) (w : World) (pl : Place) (g r : Ant) :
  heap w !! p = Some pl → guard pl = Some g → ant pl = Some r →
  let w' := Place_removeInsect p (AnAnt r) w in
  (∃ pl', heap w' !! p = Some pl' ∧ guard pl' = None ∧ ant pl' = Some r ∧
          bees pl' = bees pl) ∧
  (∀ q, q ≠ p → heap w' !! q = heap w !! q) ∧
  antStore w' = antStore w ∧ beeStore w' = beeStore w ∧
  (∀ a, Place_removeInsect p (AnAnt a) w = w').
Proof.
  intros Hp Hg Hr w'. subst w'. simpl.
  rewrite (Place_removeAnt_guarded p w pl g Hp Hg). simpl.
  split; [|split; [|split; [|split]]]; try done.
  - exists (set_guard None pl). split; [|by rewrite ?Hr].
    apply list_lookup_insert_eq. by eapply lookup_lt_Some.
  - intros q Hq. by apply list_lookup_insert_ne.
Qed.

(** What the water leaves of a place. *)
Lemma Place_act_water (p : nat) (w : World) (pl : Place) :
  heap w !! p = Some pl → water pl = true →
  heap (Place_act p w)
  = <[p := set_ant (if instanceofScubaAnt (ant pl) then ant pl else None) (set_guard None pl)]>
      (heap w)
  ∧ antStore (Place_act p w) = antStore w ∧ beeStore (Place_act p w) = beeStore w.
Proof.
  intros Hp Hw. unfold Place_act.
  rewrite (getPlace_lookup _ _ _ Hp), Hw.
  pose proof (lookup_lt_Some _ _ _ Hp) as Hlt.
  destruct (guard pl) as [g|] eqn:Hg.
  - rewrite (Place_removeAnt_guarded p w pl g Hp Hg). simpl.
    rewrite (getPlace_putPlace_eq w p _ Hlt). simpl.
    destruct (instanceofScubaAnt (ant pl)); simpl.
    + done.
    + rewrite (Place_removeAnt_unguarded p _ (set_guard None pl)); [|by apply heap_putPlace_eq|done].
      simpl. by rewrite list_insert_insert_eq.
  - rewrite (getPlace_lookup _ _ _ Hp).
    destruct (instanceofScubaAnt (ant pl)); simpl.
    + split; [|done]. symmetry. apply list_insert_id. rewrite Hp.
      destruct pl; simpl in *; by subst.
    + rewrite (Place_removeAnt_unguarded p w pl Hp Hg). simpl.
      split; [|done]. destruct pl; simpl in *; by subst.
Qed.

(** C6: [act] on a water place empties the guard slot whatever it held and
    empties the regular slot unless its defender is a [ScubaAnt], which stays;
    the bees, the links and the other places are untouched.  On a place that
    is not water it changes nothing. *)
Theorem act_washes_defenders (p : nat) (w : World) (pl : Place) :
  heap w !! p = Some pl →
  (water pl = true →
     ∃ pl', heap (Place_act p w) !! p = Some pl' ∧
            guard pl' = None ∧
            ant pl' = (if instanceofScubaAnt (ant pl) then ant pl else None) ∧
            bees pl' = bees pl ∧ exit pl' = exit pl ∧ entrance pl' = entrance pl ∧
            water pl' = true ∧
            (∀ q, q ≠ p → heap (Place_act p w) !! q = heap w !! q)) ∧
  (water pl = false → Place_act p w = w).
Proof.
  intros Hp. split.
  - intros Hw. destruct (Place_act_water p w pl Hp Hw) as (Hh & _ & _).
    eexists. rewrite Hh. split.
    + apply list_lookup_insert_eq. by eapply lookup_lt_Some.
    + simpl. repeat split; auto.
      intros q Hq. by apply list_lookup_insert_ne.
  - intros Hw. unfold Place_act. by rewrite (getPlace_lookup _ _ _ Hp), Hw.
Qed.

(** ** AntColony.deployAnt and AntColony.applyBoost *)

(** C2: [deployAnt] answers 'not enough food' when the food is below the
    cost, leaving the food and the store as they were; with enough food and
    the slot of the defender taken it answers 'tunnel already occupied', again
    with nothing changed; with enough food and the slot free it places the
    defender, takes the cost off the food and answers [undefined]: the food of
    the colony is then the old food less the cost and nothing else of the
    colony changes; the defender is in the guard slot of the place when it is
    the guard variant and in its regular slot otherwise, the other slot, the
    invaders and the links of the place being as before; no other place
    changes, and the back-reference of the defender is the place.  So the food
    changes only when the answer is [undefined]. *)
Theorem deployAnt_food_and_reasons (a : Ant) (p : nat) (c : AntColony) (w : World) (pl : Place) :
  heap w !! p = Some pl →
  ((food c < getFoodCost a)%Z →
     AntColony_deployAnt a p c w = (Some "not enough food", c, w)) ∧
  ((getFoodCost a ≤ food c)%Z → slot_of a pl ≠ None →
     AntColony_deployAnt a p c w = (Some "tunnel already occupied", c, w)) ∧
  ((getFoodCost a ≤ food c)%Z → slot_of a pl = None →
     ∃ c' w' pl',
       AntColony_deployAnt a p c w = (None, c', w') ∧
       c' = set_food (food c - getFoodCost a)%Z c ∧
       food c' = (food c - getFoodCost a)%Z ∧
       places c' = places c ∧ beeEntrances c' = beeEntrances c ∧
       queenPlace c' = queenPlace c ∧ boosts c' = boosts c ∧
       heap w' !! p = Some pl' ∧
       pl' = bind_slot a pl ∧
       (ant_class a = GuardAnt → guard pl' = Some a ∧ ant pl' = ant pl) ∧
       (ant_class a ≠ GuardAnt → ant pl' = Some a ∧ guard pl' = guard pl) ∧
       bees pl' = bees pl ∧ name pl' = name pl ∧ water pl' = water pl ∧
       exit pl' = exit pl ∧ entrance pl' = entrance pl ∧
       (∀ q, q ≠ p → heap w' !! q = heap w !! q) ∧
       length (heap w') = length (heap w) ∧
       ant_place (antState w' a) = Some p ∧
       boost (antState w' a) = boost (antState w a) ∧
       (∀ a', ant_id a' ≠ ant_id a → antState w' a' = antState w a') ∧
       beeStore w' = beeStore w) ∧
  (∀ r c' w', AntColony_deployAnt a p c w = (r, c', w') → r ≠ None → c' = c ∧ w' = w).
Proof.
  intros Hp. unfold AntColony_deployAnt.
  split; [|split; [|split]].
  - intros Hlt. apply Z.leb_gt in Hlt. by rewrite Hlt.
  - intros Hle Hs. apply Z.leb_le in Hle. rewrite Hle.
    by rewrite (Place_addAnt_taken p a w pl Hp Hs).
  - intros Hle Hs. apply Z.leb_le in Hle. rewrite Hle.
    rewrite (Place_addAnt_free p a w pl Hp Hs).
    eexists _, _, (bind_slot a pl).
    split; [done|]. do 6 (split; [done|]).
    split; [by apply heap_after_addAnt_free|]. split; [done|].
    unfold bind_slot, instanceofGuardAnt.
    split; [|split].
    + intros Hg. by rewrite bool_decide_eq_true_2.
    + intros Hg. by rewrite bool_decide_eq_false_2.
    + split; [by destruct (bool_decide (ant_class a = GuardAnt))|].
      split; [by destruct (bool_decide (ant_class a = GuardAnt))|].
      split; [by destruct (bool_decide (ant_class a = GuardAnt))|].
      split; [by destruct (bool_decide (ant_class a = GuardAnt))|].
      split; [by destruct (bool_decide (ant_class a = GuardAnt))|].
      split; [intros q Hq; simpl; by apply list_lookup_insert_ne|].
      split; [simpl; by rewrite length_insert|].
      split; [apply antState_after_setPlace|].
      split; [unfold antState, Ant_setPlace; simpl; by rewrite lookup_insert_eq|].
      split; [|done].
      intros a' Hne. unfold antState, Ant_setPlace. simpl.
      by rewrite lookup_insert_ne.
  - intros r c' w' Heq Hr. destruct (getFoodCost a <=? food c)%Z.
    + destruct (slot_of a pl) as [x|] eqn:Hs.
      * rewrite (Place_addAnt_taken p a w pl Hp) in Heq by (by rewrite Hs).
        by inversion Heq.
      * rewrite (Place_addAnt_free p a w pl Hp Hs) in Heq. inversion Heq. by subst.
    + by inversion Heq.
Qed.


Lemma boosts_get_undefined (m : gmap string BoostValue) (b : string) :
  boosts_get m b = None ↔
  b ≠ "__proto__" ∧ m !! b = None ∧ b ∉ Object_prototype_methods.
Proof.
  unfold boosts_get. destruct (String.eqb_spec b "__proto__") as [Heq|Hne].
  - split; [done|]. by intros (H & _).
  - destruct (m !! b) as [v|].
    + split; [done|]. by intros (_ & H & _).
    + destruct (decide (b ∈ Object_prototype_methods)) as [Hin|Hnin].
      * rewrite bool_decide_eq_true_2 by done. split; [done|]. by intros (_ & _ & H).
      * rewrite bool_decide_eq_false_2 by done. done.
Qed.


Lemma boosts_get_inherited (m : gmap string BoostValue) (b : string) :
  b = "__proto__" ∨ (b ∈ Object_prototype_methods ∧ m !! b = None) →
  boosts_get m b = Some NotANumber.
Proof.
  unfold boosts_get. intros [->|[Hin Hm]]; [done|].
  destruct (String.eqb b "__proto__"); [done|].
  by rewrite Hm, bool_decide_eq_true_2.
Qed.


(** ** AntGame.gameIsWon *)

Lemma foldl_concat_length {A B} (f : A → list B) (l : list A) (init : list B) :
  length (foldl (λ acc p, acc ++ f p) init l)
  = length init + sum_list (map (λ p, length (f p)) l).
Proof.
  revert init. induction l as [|x l IH]; intros init; simpl.
  - lia.
  - rewrite IH, length_app. lia.
Qed.

Lemma getAllBees_length (c : AntColony) (w : World) :
  length (AntColony_getAllBees c w)
  = sum_list (map (λ p, length (bees (getPlace w p))) (all_places c)).
Proof.
  unfold AntColony_getAllBees. rewrite foldl_concat_length. simpl.
  unfold Place_getBees. reflexivity.
Qed.

(** C4: [gameIsWon] is [false] as soon as the queen's place holds a bee,
    whatever the number of bees elsewhere; [true] when the queen's place is
    empty and the places of the grid and the hive hold no bee at all; and
    [undefined] when the queen's place is empty and a bee is left somewhere. *)
Theorem gameIsWon_outcomes (g : AntGame) (w : World) :
  (bees (getPlace w (queenPlace (colony g))) ≠ [] → AntGame_gameIsWon g w = Some false) ∧
  (bees (getPlace w (queenPlace (colony g))) = [] → total_invaders g w = 0 →
     AntGame_gameIsWon g w = Some true) ∧
  (bees (getPlace w (queenPlace (colony g))) = [] → total_invaders g w ≠ 0 →
     AntGame_gameIsWon g w = None).
Proof.
  unfold AntGame_gameIsWon, AntColony_queenHasBees, total_invaders, Place_getBees.
  rewrite getAllBees_length.
  split; [|split].
  - intros Hq. destruct (bees (getPlace w (queenPlace (colony g)))); [done|reflexivity].
  - intros Hq Ht. rewrite Hq, Ht. reflexivity.
  - intros Hq Ht. rewrite Hq. simpl.
    apply Nat.eqb_neq in Ht. by rewrite Ht.
Qed.

(** ** Place.getClosestBee *)

(** The loop from a place [a] reached at distance [dist], when the place [k]
    hops further is the first one within the bounds that holds a bee. *)
Lemma getClosestBee_loop_found (w : World) (maxDistance minDistance : Z) (k : nat) :
  ∀ (n : nat) (a : nat) (dist : Z) (q : nat),
    k < n →
    hop w a k = Some q → bees (getPlace w q) ≠ [] →
    (minDistance ≤ dist + Z.of_nat k ≤ maxDistance)%Z → (0 ≤ dist)%Z →
    (∀ k' q', k' < k → (minDistance ≤ dist + Z.of_nat k')%Z → hop w a k' = Some q' →
              bees (getPlace w q') = []) →
    getClosestBee_loop n w (Some a) dist maxDistance minDistance = head (bees (getPlace w q)).
Proof.
  induction k as [|k IH]; intros n a dist q Hn Hhop Hbees Hrange Hdist Hfirst.
  - simpl in Hhop. injection Hhop as ->.
    destruct n as [|n]; [lia|]. simpl. settle_leb.
    destruct (bees (getPlace w q)); [done|reflexivity].
  - destruct n as [|n]; [lia|]. simpl in Hhop |- *.
    replace (dist <=? maxDistance)%Z with true by (symmetry; apply Z.leb_le; lia).
    assert (Hskip : (minDistance <=? dist)%Z
                    && negb (Nat.eqb (length (bees (getPlace w a))) 0) = false).
    { destruct (minDistance <=? dist)%Z eqn:Hm; [|done]. simpl.
      apply Z.leb_le in Hm.
      rewrite (Hfirst 0 a); [done|lia|lia|done]. }
    rewrite Hskip.
    destruct (entrance (getPlace w a)) as [e|] eqn:He; [|done].
    apply IH; try done; try lia.
    intros k' q' Hk' Hmin Hhop'. apply (Hfirst (S k') q'); [lia|lia|].
    simpl. by rewrite He.
Qed.

(** The loop finds nothing when no place up the chain qualifies. *)
Lemma getClosestBee_loop_none (w : World) (maxDistance minDistance : Z) (n : nat) :
  ∀ (a : nat) (dist : Z),
    (∀ k q, (minDistance ≤ dist + Z.of_nat k ≤ maxDistance)%Z → hop w a k = Some q →
            bees (getPlace w q) = []) →
    getClosestBee_loop n w (Some a) dist maxDistance minDistance = None.
Proof.
  induction n as [|n IH]; intros a dist Hnone; [done|]. simpl.
  destruct (dist <=? maxDistance)%Z eqn:Hmax; [|done].
  apply Z.leb_le in Hmax.
  assert (Hskip : (minDistance <=? dist)%Z
                  && negb (Nat.eqb (length (bees (getPlace w a))) 0) = false).
  { destruct (minDistance <=? dist)%Z eqn:Hm; [|done]. simpl.
    apply Z.leb_le in Hm.
    rewrite (Hnone 0 a); [done|lia|done]. }
  rewrite Hskip.
  destruct (entrance (getPlace w a)) as [e|] eqn:He.
  - apply IH. intros k q Hr Hhop. apply (Hnone (S k) q); [lia|].
    simpl. by rewrite He.
  - destruct n; reflexivity.
Qed.

(** C7: with bounds that are not negative, [getClosestBee] returns the first
    bee of the first place up the chain of [entrance] links whose distance
    lies within the bounds and which holds a bee, and [undefined] when no
    place qualifies; with [maxDistance = 0] a bee it returns is the first bee
    of the place itself. *)
Theorem getClosestBee_first_qualifying (p : nat) (maxDistance minDistance : Z) (w : World) :
  (0 ≤ maxDistance)%Z → (0 ≤ minDistance)%Z →
  (∀ d q, qualifies w p maxDistance minDistance d → hop w p d = Some q →
          (∀ d', d' < d → ¬ qualifies w p maxDistance minDistance d') →
          ∃ b, head (bees (getPlace w q)) = Some b ∧
               Place_getClosestBee p maxDistance minDistance w = Some b) ∧
  ((∀ d, ¬ qualifies w p maxDistance minDistance d) →
     Place_getClosestBee p maxDistance minDistance w = None) ∧
  (∀ b, maxDistance = 0%Z → Place_getClosestBee p maxDistance minDistance w = Some b →
        head (bees (getPlace w p)) = Some b).
Proof.
  intros Hmax Hmin. split; [|split].
  - intros d q [Hrange (q0 & Hq0 & Hbees)] Hhop Hfirst.
    rewrite Hhop in Hq0. injection Hq0 as <-.
    destruct (bees (getPlace w q)) as [|b bs] eqn:Hb; [done|].
    exists b. split; [done|].
    unfold Place_getClosestBee.
    rewrite (getClosestBee_loop_found w maxDistance minDistance d _ p 0%Z q);
      [by rewrite Hb | lia | done | by rewrite Hb | lia | lia |].
    intros k' q' Hk' Hmin' Hhop'.
    destruct (bees (getPlace w q')) eqn:Hb'; [done|].
    exfalso. apply (Hfirst k' Hk'). split; [lia|].
    exists q'. split; [done|]. by rewrite Hb'.
  - intros Hnone. unfold Place_getClosestBee.
    apply getClosestBee_loop_none. intros k q Hr Hhop.
    destruct (bees (getPlace w q)) eqn:Hb; [done|].
    exfalso. apply (Hnone k). split; [lia|].
    exists q. split; [done|]. by rewrite Hb.
  - intros b -> Hres. unfold Place_getClosestBee in Hres. simpl in Hres.
    destruct ((minDistance <=? 0)%Z
              && negb (Nat.eqb (length (bees (getPlace w p))) 0)); [done|].
    by destruct (entrance (getPlace w p)).
Qed.

(** ** The constructor of AntColony *)

(** The inner loop allocates [n] consecutive places after the store, links
    each to the one before (the first to [curr]) and back, and touches
    nothing else than [curr]. *)
Lemma tunnel_loop_spec (tunnel : nat) (moat : Z) (n : nat) :
  ∀ (step curr : nat) (row : list nat) (w : World),
    curr < length (heap w) →
    ∃ w', tunnel_loop n tunnel step moat curr row w
          = (match n with O => curr | S m => length (heap w) + m end,
             row ++ seq (length (heap w)) n, w') ∧
      length (heap w') = length (heap w) + n ∧
      (∀ a, a < length (heap w) → a ≠ curr → heap w' !! a = heap w !! a) ∧
      heap w' !! curr
        = Some (match n with
                | O => getPlace w curr
                | S _ => set_entrance (Some (length (heap w))) (getPlace w curr)
                end) ∧
      (∀ i, i < n →
         heap w' !! (length (heap w) + i)
         = Some (cell tunnel (step + i) moat
                      (match i with O => curr | S j => length (heap w) + j end)
                      (if decide (S i < n) then Some (length (heap w) + S i) else None))).
Proof.
  induction n as [|n IH]; intros step curr row w Hcurr.
  - exists w. simpl. rewrite app_nil_r. repeat split; auto; try lia.
    unfold getPlace. destruct (heap w !! curr) eqn:E; [done|].
    apply lookup_ge_None in E. lia.
  - simpl.
    set (newp := new_Place _ _ _).
    set (w1 := mkWorld (heap w ++ [newp]) _ _ _).
    set (w2 := Place_setEntrance curr (length (heap w)) w1).
    assert (Hlen2 : length (heap w2) = S (length (heap w))).
    { unfold w2, Place_setEntrance. simpl. rewrite length_insert, length_app. simpl. lia. }
    assert (Hc2 : heap w2 !! curr = Some (set_entrance (Some (length (heap w))) (getPlace w curr))).
    { unfold w2, Place_setEntrance. simpl. rewrite list_lookup_insert_eq.
      - f_equal. f_equal. unfold getPlace. simpl. by rewrite lookup_app_l.
      - rewrite length_app. simpl. lia. }
    assert (Hnew2 : heap w2 !! length (heap w) = Some newp).
    { unfold w2, Place_setEntrance. simpl. rewrite list_lookup_insert_ne by lia.
      rewrite lookup_app_r by lia. by rewrite Nat.sub_diag. }
    assert (Hold2 : ∀ a, a < length (heap w) → a ≠ curr → heap w2 !! a = heap w !! a).
    { intros a Ha Hne. unfold w2, Place_setEntrance. simpl.
      rewrite list_lookup_insert_ne by lia. by rewrite lookup_app_l. }
    destruct (IH (S step) (length (heap w)) (row ++ [length (heap w)]) w2) as
      (w' & Heq & Hlen & Hold & Hcur & Hcells); [lia|].
    exists w'. rewrite Hlen2 in *. split; [|split; [|split; [|split]]].
    + rewrite Heq, <- app_assoc. simpl. do 2 f_equal. destruct n; lia.
    + lia.
    + intros a Ha Hne. rewrite Hold by lia. by apply Hold2.
    + rewrite Hold by lia. exact Hc2.
    + intros i Hi. destruct i as [|i].
      * rewrite !Nat.add_0_r, Hcur, (getPlace_lookup _ _ _ Hnew2).
        destruct n as [|n].
        -- rewrite decide_False by lia. reflexivity.
        -- rewrite decide_True by lia. unfold cell, newp. simpl.
           do 3 f_equal. lia.
      * specialize (Hcells i ltac:(lia)).
        replace (length (heap w) + S i) with (S (length (heap w)) + i) by lia.
        rewrite Hcells.
        replace (S step + i) with (step + S i) by lia.
        f_equal. f_equal.
        -- destruct i; lia.
        -- destruct (decide (S i < n)), (decide (S (S i) < S n)); try lia; try done.
           f_equal. lia.
Qed.

(** The outer loop builds [n] tunnels of [L] consecutive places each, all
    starting at the queen's place [q], of which only the [entrance] changes. *)
Lemma tunnels_loop_spec (L : nat) (moat : Z) (q : nat) (n : nat) :
  0 < L →
  ∀ (t0 : nat) (grid : list (list nat)) (ents : list nat) (w : World),
    q < length (heap w) →
    ∃ w', tunnels_loop n t0 L moat q grid ents w
          = (grid ++ ((λ i, seq (length (heap w) + i * L) L) <$> seq 0 n),
             ents ++ ((λ i, length (heap w) + i * L + (L - 1)) <$> seq 0 n), w') ∧
      length (heap w') = length (heap w) + n * L ∧
      (∀ a, a < length (heap w) → a ≠ q → heap w' !! a = heap w !! a) ∧
      (∃ e, heap w' !! q = Some (set_entrance e (getPlace w q))) ∧
      (∀ i s, i < n → s < L →
         heap w' !! (length (heap w) + i * L + s)
         = Some (cell (t0 + i) s moat
                   (match s with O => q | S j => length (heap w) + i * L + j end)
                   (if decide (S s < L) then Some (length (heap w) + i * L + S s) else None))).
Proof.
  intros HL. induction n as [|n IH]; intros t0 grid ents w Hq.
  - exists w. simpl. rewrite !app_nil_r. repeat split; auto; try lia.
    exists (entrance (getPlace w q)).
    unfold getPlace. destruct (heap w !! q) as [pl|] eqn:E.
    + simpl. by destruct pl.
    + apply lookup_ge_None in E. lia.
  - simpl.
    destruct (tunnel_loop_spec t0 moat L 0 q [] w Hq) as (w1 & Heq & Hlen & Hold & Hcur & Hcells).
    rewrite app_nil_l in Heq. rewrite Heq.
    destruct (IH (S t0) (grid ++ [seq (length (heap w)) L])
                 (ents ++ [match L with O => q | S m => length (heap w) + m end]) w1)
      as (w' & Heq' & Hlen' & Hold' & (e & Hcur') & Hcells'); [lia|].
    exists w'. simpl in Heq'. rewrite Heq'.
    split; [|split; [|split; [|split]]].
    + rewrite <- !app_assoc. simpl. rewrite Nat.add_0_r.
      rewrite <- !fmap_S_seq, <- !list_fmap_compose.
      replace (match L with O => q | S m => length (heap w) + m end)
        with (length (heap w) + (L - 1)) by (destruct L; lia).
      rewrite (list_fmap_ext (λ i, seq (length (heap w1) + i * L) L)
                 ((λ i, seq (length (heap w) + i * L) L) ∘ S) (seq 0 n))
        by (intros _ i _; simpl; f_equal; lia).
      rewrite (list_fmap_ext (λ i, length (heap w1) + i * L + (L - 1))
                 ((λ i, length (heap w) + i * L + (L - 1)) ∘ S) (seq 0 n))
        by (intros _ i _; simpl; lia).
      reflexivity.
    + lia.
    + intros a Ha Hne. rewrite Hold' by lia. by apply Hold.
    + exists e. rewrite Hcur'. f_equal.
      rewrite (getPlace_lookup _ _ _ Hcur). by destruct L.
    + intros i s Hi Hs. destruct i as [|i].
      * rewrite Hold' by lia. simpl. rewrite !Nat.add_0_r.
        rewrite (Hcells s Hs). destruct s; reflexivity.
      * specialize (Hcells' i s ltac:(lia) Hs).
        replace (length (heap w) + S i * L + s) with (length (heap w1) + i * L + s) by lia.
        rewrite Hcells'.
        replace (S t0 + i) with (t0 + S i) by lia.
        f_equal. f_equal.
        -- destruct s; lia.
        -- destruct (decide (S s < L)); [|done]. f_equal. lia.
Qed.

(** The grid and the entrances of a new colony, by address. *)
Lemma new_AntColony_spec (startingFood : Z) (T L : nat) (moat : Z) (w : World) :
  0 < L →
  let q := length (heap w) in
  ∃ w', new_AntColony startingFood T L moat w
        = (mkAntColony startingFood
             ((λ i, seq (S q + i * L) L) <$> seq 0 T)
             ((λ i, S q + i * L + (L - 1)) <$> seq 0 T)
             q initial_boosts, w') ∧
    (∃ e, heap w' !! q = Some (set_entrance e (new_Place "Ant Queen" false None))) ∧
    (∀ i s, i < T → s < L →
       heap w' !! (S q + i * L + s)
       = Some (cell i s moat
                 (match s with O => q | S j => S q + i * L + j end)
                 (if decide (S s < L) then Some (S q + i * L + S s) else None))) ∧
    length (heap w') = S q + T * L ∧
    (∀ a, a < q → heap w' !! a = heap w !! a).
Proof.
  intros HL q. unfold new_AntColony. simpl.
  set (w0 := mkWorld (heap w ++ [new_Place "Ant Queen" false None]) _ _ _).
  assert (Hlen0 : length (heap w0) = S q).
  { unfold w0. simpl. rewrite length_app. simpl. unfold q. lia. }
  destruct (tunnels_loop_spec L moat q T HL 0 [] [] w0) as
    (w' & Heq & Hlen & Hold & (e & Hcur) & Hcells); [lia|].
  exists w'. fold q. rewrite Heq, Hlen0. simpl. split; [done|].
  split; [|split; [|split]].
  - exists e. rewrite Hcur. do 2 f_equal. apply getPlace_lookup.
    unfold w0. simpl. rewrite lookup_app_r by (unfold q; lia).
    unfold q. by rewrite Nat.sub_diag.
  - intros i s Hi Hs. specialize (Hcells i s Hi Hs).
    rewrite Hlen0 in Hcells. exact Hcells.
  - rewrite Hlen, Hlen0. reflexivity.
  - intros a Ha. rewrite Hold by lia. unfold w0. simpl.
    apply lookup_app_l. unfold q in Ha. exact Ha.
Qed.

Lemma lookup_map_seq_0 {A} (f : nat → A) (n i : nat) :
  (f <$> seq 0 n) !! i = if decide (i < n) then Some (f i) else None.
Proof.
  rewrite list_lookup_fmap.
  destruct (decide (i < n)).
  - by rewrite lookup_seq_lt.
  - by rewrite lookup_seq_ge by lia.
Qed.

Lemma water_typeName (moat : Z) (step : nat) :
  String.eqb (typeName_of moat step) "water" = true
  ↔ moat ≠ 0%Z ∧ (moat | Z.of_nat step + 1)%Z.
Proof.
  unfold typeName_of.
  destruct (moat =? 0)%Z eqn:E0; simpl.
  - apply Z.eqb_eq in E0. split; [done|]. intros [H _]. done.
  - apply Z.eqb_neq in E0.
    destruct (Z.rem (Z.of_nat step + 1) moat =? 0)%Z eqn:Er; simpl.
    + apply Z.eqb_eq in Er. split; [|done]. intros _. split; [done|].
      by apply Z.rem_divide.
    + apply Z.eqb_neq in Er. split; [done|]. intros [_ Hd].
      by apply Z.rem_divide in Hd.
Qed.

Lemma place_at_new (startingFood : Z) (T L : nat) (moat : Z) (w : World) (t s : nat) :
  0 < L →
  place_at (new_AntColony startingFood T L moat w).1 t s
  = if decide (t < T ∧ s < L) then Some (S (length (heap w)) + t * L + s) else None.
Proof.
  intros HL. destruct (new_AntColony_spec startingFood T L moat w HL) as (w' & Heq & _).
  rewrite Heq. unfold place_at. simpl. rewrite lookup_map_seq_0.
  destruct (decide (t < T)).
  - destruct (decide (s < L)).
    + rewrite lookup_seq_lt by done. rewrite decide_True by done. reflexivity.
    + rewrite lookup_seq_ge by lia. rewrite decide_False by lia. reflexivity.
  - rewrite decide_False by lia. reflexivity.
Qed.

(** C5 (as the code has it): a colony built with [T >= 1] tunnels of length
    [L >= 1] has [T] entrances, all different, the entrance of a tunnel being
    its last place; the queen's place has no [exit]; the grid has exactly the
    places of steps [0 .. L-1] of tunnels [0 .. T-1], the places that existed
    before are untouched and every place created is the queen's place or a
    place of the grid; each place of the grid is not the
    queen's place, has its [exit] defined (the queen's place for step 0, the
    place one step before otherwise), has for [entrance] the place one step
    further, which is defined exactly when the step is not the last of the
    tunnel, and is water exactly when the moat frequency is not zero and
    divides the step plus one. *)
Theorem new_AntColony_grid (startingFood : Z) (T L : nat) (m : Z) (w : World) :
  1 ≤ T → 1 ≤ L →
  let c := (new_AntColony startingFood T L m w).1 in
  let w' := (new_AntColony startingFood T L m w).2 in
  length (beeEntrances c) = T ∧
  NoDup (beeEntrances c) ∧
  (∀ t, t < T → beeEntrances c !! t = place_at c t (L - 1)) ∧
  (∃ plq, heap w' !! queenPlace c = Some plq ∧ exit plq = None) ∧
  (∀ t s, place_at c t s ≠ None ↔ t < T ∧ s < L) ∧
  (∀ a, a < length (heap w) → heap w' !! a = heap w !! a) ∧
  (∀ a, length (heap w) ≤ a < length (heap w') →
        a = queenPlace c ∨ ∃ t s, place_at c t s = Some a) ∧
  (∀ t s, t < T → s < L →
     ∃ a pl, place_at c t s = Some a ∧ heap w' !! a = Some pl ∧
       a ≠ queenPlace c ∧
       exit pl ≠ None ∧
       exit pl = (match s with O => Some (queenPlace c) | S j => place_at c t j end) ∧
       entrance pl = place_at c t (S s) ∧
       (entrance pl ≠ None ↔ S s < L) ∧
       (water pl = true ↔ m ≠ 0%Z ∧ (m | Z.of_nat s + 1)%Z)).
Proof.
  intros HT HL c w'.
  assert (HL' : 0 < L) by lia.
  assert (Hat : ∀ t s, place_at c t s
            = if decide (t < T ∧ s < L) then Some (S (length (heap w)) + t * L + s) else None).
  { intros t s. unfold c. by apply place_at_new. }
  destruct (new_AntColony_spec startingFood T L m w HL')
    as (w1 & Heq & (e & Hq) & Hcells & Hlen & Hold).
  assert (Hc : c = mkAntColony startingFood
                     ((λ i, seq (S (length (heap w)) + i * L) L) <$> seq 0 T)
                     ((λ i, S (length (heap w)) + i * L + (L - 1)) <$> seq 0 T)
                     (length (heap w)) initial_boosts).
  { unfold c. by rewrite Heq. }
  assert (Hw : w' = w1). { unfold w'. by rewrite Heq. }
  clearbody c w'. subst w'.
  split; [|split; [|split; [|split; [|split; [|split; [|split]]]]]].
  - rewrite Hc. simpl. by rewrite length_fmap, length_seq.
  - rewrite Hc. simpl. apply NoDup_fmap_2_strong; [|apply NoDup_seq].
    intros x y _ _ Hxy. nia.
  - intros t Ht. rewrite Hat, decide_True by lia.
    rewrite Hc. simpl. rewrite lookup_map_seq_0, decide_True by done. reflexivity.
  - eexists. rewrite Hc. simpl. split; [exact Hq|reflexivity].
  - intros t s. rewrite Hat. destruct (decide (t < T ∧ s < L)); split; try done.
  - exact Hold.
  - intros a [Hlo Hhi]. rewrite Hlen in Hhi.
    destruct (decide (a = length (heap w))) as [->|Hne].
    + left. by rewrite Hc.
    + right. set (d := a - S (length (heap w))).
      exists (d / L), (d mod L). rewrite Hat.
      assert (HdL : d < T * L) by (unfold d; lia).
      assert (d mod L < L) by (apply Nat.mod_upper_bound; lia).
      assert (d / L < T) by (apply Nat.Div0.div_lt_upper_bound; lia).
      rewrite decide_True by done. f_equal.
      pose proof (Nat.div_mod_eq d L). unfold d in *. lia.
  - intros t s Ht Hs.
    assert (Hqp : queenPlace c = length (heap w)) by (by rewrite Hc).
    eexists. eexists.
    split; [by rewrite Hat, decide_True by done|].
    split; [by apply Hcells|].
    rewrite Hqp. simpl.
    split; [lia|]. split; [done|]. split; [|split; [|split]].
    + destruct s as [|j]; [done|]. rewrite Hat, decide_True by lia. reflexivity.
    + rewrite Hat. destruct (decide (S s < L)).
      * by rewrite decide_True by lia.
      * by rewrite decide_False by lia.
    + destruct (decide (S s < L)); split; try done.
    + apply water_typeName.
Qed.

(** ** Hive.addWave and Hive.invade *)

Lemma randIndex_range (r : Q) (n : nat) :
  (0 <= r)%Q → (r < 1)%Q → 0 < n →
  (0 ≤ randIndex r n < Z.of_nat n)%Z.
Proof.
  intros H0 H1 Hn. unfold randIndex.
  assert (Hpos : (0 < inject_Z (Z.of_nat n))%Q).
  { change (inject_Z 0 < inject_Z (Z.of_nat n))%Q. rewrite <- Zlt_Qlt. lia. }
  split.
  - change 0%Z with (Qfloor 0). apply Qfloor_resp_le.
    apply Qmult_le_0_compat; [done|]. by apply Qlt_le_weak.
  - rewrite Zlt_Qlt.
    eapply Qle_lt_trans; [apply Qfloor_le|].
    rewrite <- (Qmult_1_l (inject_Z (Z.of_nat n))) at 2.
    by apply Qmult_lt_compat_r.
Qed.

Lemma array_get_randIndex (l : list nat) (r : Q) :
  (0 <= r)%Q → (r < 1)%Q → l ≠ [] →
  ∃ e, array_get l (randIndex r (length l)) = Some e ∧ e ∈ l.
Proof.
  intros H0 H1 Hl.
  assert (Hn : 0 < length l) by (destruct l; [done|simpl; lia]).
  destruct (randIndex_range r (length l) H0 H1 Hn) as [Hlo Hhi].
  unfold array_get.
  replace (randIndex r (length l) <? 0)%Z with false by (symmetry; apply Z.ltb_ge; lia).
  destruct (l !! Z.to_nat (randIndex r (length l))) as [e|] eqn:E.
  - exists e. split; [done|]. apply list_elem_of_lookup. eauto.
  - apply lookup_ge_None in E. lia.
Qed.

Lemma remove_first_middle (b : nat) (l1 l2 : list nat) :
  b ∉ l1 → remove_first b (l1 ++ b :: l2) = l1 ++ l2.
Proof.
  intros Hb. unfold remove_first.
  assert (E : indexOf b (l1 ++ b :: l2) = Some (length l1)).
  { induction l1 as [|x l1 IH]; simpl.
    - by rewrite Nat.eqb_refl.
    - apply not_elem_of_cons in Hb as [Hne Hb].
      destruct (Nat.eqb x b) eqn:E; [apply Nat.eqb_eq in E; congruence|].
      by rewrite IH. }
  rewrite E. apply delete_middle.
Qed.

Lemma remove_first_wave (old wave : list nat) :
  NoDup wave → (∀ b, b ∈ wave → b ∉ old) →
  foldl (λ l b, remove_first b l) (old ++ wave) wave = old.
Proof.
  revert old. induction wave as [|b wave IH]; intros old Hnd Hfresh; simpl.
  - by rewrite app_nil_r.
  - apply NoDup_cons in Hnd as [Hb Hnd].
    rewrite remove_first_middle by (apply Hfresh; left).
    apply IH; [done|]. intros b' Hb'. apply Hfresh. by right.
Qed.

Lemma indexOf_absent (b : nat) (l : list nat) : b ∉ l → indexOf b l = None.
Proof.
  induction l as [|x l IH]; intros Hb; simpl; [done|].
  apply not_elem_of_cons in Hb as [Hne Hb].
  destruct (Nat.eqb x b) eqn:E; [apply Nat.eqb_eq in E; congruence|].
  by rewrite IH.
Qed.

Lemma indexOf_middle (b : nat) (l1 l2 : list nat) :
  b ∉ l1 → indexOf b (l1 ++ b :: l2) = Some (length l1).
Proof.
  intros Hb. induction l1 as [|x l1 IH]; simpl.
  - by rewrite Nat.eqb_refl.
  - apply not_elem_of_cons in Hb as [Hne Hb].
    destruct (Nat.eqb x b) eqn:E; [apply Nat.eqb_eq in E; congruence|].
    by rewrite IH.
Qed.

Lemma remove_first_absent (b : nat) (l : list nat) : b ∉ l → remove_first b l = l.
Proof. intros Hb. unfold remove_first. by rewrite indexOf_absent. Qed.

Lemma remove_first_NoDup (b : nat) (l : list nat) :
  NoDup l → NoDup (remove_first b l) ∧ (b ∉ remove_first b l) ∧
            ∀ x, x ∈ remove_first b l ↔ x ∈ l ∧ x ≠ b.
Proof.
  intros Hnd. destruct (decide (b ∈ l)) as [Hin|Hout].
  - destruct (list_elem_of_split_l l b Hin) as (l1 & l2 & -> & Hl1).
    rewrite remove_first_middle by done.
    apply NoDup_app in Hnd as (Hn1 & Hdisj & Hn2).
    apply NoDup_cons in Hn2 as [Hb2 Hn2].
    split; [|split].
    + apply NoDup_app. split; [done|]. split; [|done].
      intros x Hx Hx2. apply (Hdisj x Hx). by right.
    + intros Hb. apply elem_of_app in Hb as [Hb|Hb]; done.
    + intros x. rewrite !elem_of_app, elem_of_cons. split.
      * intros [Hx|Hx]; (split; [tauto|]); intros ->; done.
      * intros [[Hx|[Hx|Hx]] Hne]; tauto.
  - rewrite remove_first_absent by done. split; [done|]. split; [done|].
    intros x. split; [|tauto]. intros Hx. split; [done|]. by intros ->.
Qed.

Lemma remove_first_fold_NoDup (wave l : list nat) :
  NoDup l →
  NoDup (foldl (λ l b, remove_first b l) l wave) ∧
  ∀ x, x ∈ foldl (λ l b, remove_first b l) l wave ↔ x ∈ l ∧ x ∉ wave.
Proof.
  revert l. induction wave as [|b wave IH]; intros l Hnd; simpl.
  - split; [done|]. intros x. split; [|tauto].
    intros Hx. split; [done|]. apply not_elem_of_nil.
  - destruct (remove_first_NoDup b l Hnd) as (Hnd' & _ & Hmem).
    destruct (IH _ Hnd') as (Hnd2 & Hmem2).
    split; [done|]. intros x. rewrite Hmem2, Hmem, not_elem_of_cons. tauto.
Qed.

Lemma Place_removeBee_spec (p : nat) (b : nat) (w : World) :
  p < length (heap w) →
  length (heap (Place_removeBee p b w)) = length (heap w) ∧
  bees (getPlace (Place_removeBee p b w) p) = remove_first b (bees (getPlace w p)) ∧
  (∀ q, q ≠ p → getPlace (Place_removeBee p b w) q = getPlace w q) ∧
  (∀ b', b' ≠ b → beeState (Place_removeBee p b w) b' = beeState w b') ∧
  antStore (Place_removeBee p b w) = antStore w ∧
  nextBee (Place_removeBee p b w) = nextBee w.
Proof.
  intros Hp. unfold Place_removeBee, remove_first.
  destruct (indexOf b (bees (getPlace w p))) as [i|]; [|done].
  split; [simpl; by rewrite length_insert|].
  split.
  { change (getPlace (Bee_setPlace b None ?x) p) with (getPlace x p).
    by rewrite getPlace_putPlace_eq. }
  split.
  { intros q Hq. change (getPlace (Bee_setPlace b None ?x) q) with (getPlace x q).
    by rewrite getPlace_putPlace_ne. }
  split; [|done].
  intros b' Hb'. unfold beeState. simpl. by rewrite lookup_insert_ne.
Qed.

Lemma Place_addBee_spec (p : nat) (b : nat) (w : World) :
  p < length (heap w) →
  length (heap (Place_addBee p b w)) = length (heap w) ∧
  bees (getPlace (Place_addBee p b w) p) = bees (getPlace w p) ++ [b] ∧
  (∀ q, q ≠ p → getPlace (Place_addBee p b w) q = getPlace w q) ∧
  bee_place (beeState (Place_addBee p b w) b) = Some p ∧
  (∀ b', b' ≠ b → beeState (Place_addBee p b w) b' = beeState w b') ∧
  antStore (Place_addBee p b w) = antStore w ∧
  nextBee (Place_addBee p b w) = nextBee w.
Proof.
  intros Hp. unfold Place_addBee.
  split; [simpl; by rewrite length_insert|].
  split.
  { change (getPlace (Bee_setPlace b (Some p) ?x) p) with (getPlace x p).
    by rewrite getPlace_putPlace_eq. }
  split.
  { intros q Hq. change (getPlace (Bee_setPlace b (Some p) ?x) q) with (getPlace x q).
    by rewrite getPlace_putPlace_ne. }
  split; [unfold beeState; simpl; by rewrite lookup_insert_eq|].
  split; [|done].
  intros b' Hb'. unfold beeState. simpl. by rewrite lookup_insert_ne.
Qed.

(** The [forEach] of [invade] on a colony with an entrance: every bee leaves
    the array of the hive and joins the array of an entrance. *)
Lemma invade_forEach_spec (h : Hive) (ents : list nat) (rnd : nat → Q) (wave : list nat) :
  ents ≠ [] → hive_place h ∉ ents → (∀ k, (0 <= rnd k)%Q ∧ (rnd k < 1)%Q) →
  ∀ (k : nat) (w : World),
    hive_place h < length (heap w) →
    Forall (λ e, e < length (heap w)) ents →
    ∃ w', invade_forEach h ents rnd k wave w = Ret tt w' ∧
      length (heap w') = length (heap w) ∧
      bees (getPlace w' (hive_place h))
        = foldl (λ l b, remove_first b l) (bees (getPlace w (hive_place h))) wave ∧
      (∀ q, q ≠ hive_place h → ∃ added, bees (getPlace w' q) = bees (getPlace w q) ++ added) ∧
      (∀ b, b ∈ wave →
         ∃ e, e ∈ ents ∧ b ∈ bees (getPlace w' e) ∧
              (NoDup wave → bee_place (beeState w' b) = Some e)) ∧
      (∀ q, q ∉ ents → q ≠ hive_place h → getPlace w' q = getPlace w q) ∧
      (∀ b, b ∉ wave → beeState w' b = beeState w b) ∧
      antStore w' = antStore w ∧ nextBee w' = nextBee w.
Proof.
  intros Hne Hhive Hrnd.
  induction wave as [|bee rest IH]; intros k w Hhp Hents.
  - exists w. simpl. repeat split; auto.
    + intros q _. exists []. by rewrite app_nil_r.
    + intros b Hb. by apply elem_of_nil in Hb.
  - simpl. unfold invade_bee.
    destruct (Hrnd k) as [H0 H1].
    destruct (array_get_randIndex ents (rnd k) H0 H1 Hne) as (e & Hget & He).
    rewrite Hget. simpl.
    destruct (Place_removeBee_spec (hive_place h) bee w Hhp)
      as (Hl1 & Hb1 & Hf1 & Hs1 & Ha1 & Hn1).
    set (w1 := Place_removeBee (hive_place h) bee w) in *.
    assert (Hew : e < length (heap w)).
    { rewrite Forall_forall in Hents. by apply Hents. }
    assert (Hehp : e ≠ hive_place h) by (intros ->; done).
    destruct (Place_addBee_spec e bee w1) as (Hl2 & Hb2 & Hf2 & Hp2 & Hs2 & Ha2 & Hn2); [lia|].
    set (w2 := Place_addBee e bee w1) in *.
    destruct (IH (S k) w2) as (w' & Heq & Hl & Hb & Hmono & Hmem & Hframe & Hst & Ha & Hn).
    { lia. }
    { rewrite Hl2, Hl1. done. }
    exists w'. split; [done|].
    split; [lia|].
    split; [(rewrite Hb, Hf2, Hb1 by done); reflexivity|].
    split.
    { intros q Hq. destruct (Hmono q Hq) as (added & Hadd). rewrite Hadd.
      destruct (decide (q = e)) as [->|Hqe].
      - exists ([bee] ++ added). by rewrite Hb2, Hf1, app_assoc.
      - exists added. by rewrite Hf2, Hf1. }
    split.
    { intros b Hb'. apply elem_of_cons in Hb' as [->|Hb'].
      - exists e. split; [done|]. split.
        + destruct (Hmono e Hehp) as (added & Hadd). rewrite Hadd, Hb2.
          apply elem_of_app. left. apply elem_of_app. right. by left.
        + intros Hnd. apply NoDup_cons in Hnd as [Hnot _].
          by rewrite Hst.
      - destruct (Hmem b Hb') as (e' & He' & Hin & Hback).
        exists e'. split; [done|]. split; [done|].
        intros Hnd. apply NoDup_cons in Hnd as [_ Hnd]. by apply Hback. }
    split.
    { intros q Hq Hqh. rewrite Hframe, Hf2, Hf1; try done. by intros ->. }
    split; [|split; congruence].
    intros b Hb'. apply not_elem_of_cons in Hb' as [Hne' Hb'].
    by rewrite Hst, Hs2, Hs1.
Qed.

(** The loop of [addWave] creates bees with the next [n] identities and
    appends them, in this order, to the wave and to the array of the hive. *)
Lemma addWave_loop_spec (h : Hive) (n : nat) :
  ∀ (wave : list nat) (w : World),
    hive_place h < length (heap w) →
    ∃ w', addWave_loop n h wave w = (wave ++ seq (nextBee w) n, w') ∧
      length (heap w') = length (heap w) ∧
      bees (getPlace w' (hive_place h)) = bees (getPlace w (hive_place h)) ++ seq (nextBee w) n ∧
      (∀ q, q ≠ hive_place h → getPlace w' q = getPlace w q) ∧
      antStore w' = antStore w ∧ nextBee w' = nextBee w + n.
Proof.
  induction n as [|n IH]; intros wave w Hhp.
  - exists w. simpl. rewrite !app_nil_r. repeat split; auto.
  - simpl.
    set (w1 := mkWorld (heap w) (antStore w) _ (S (nextBee w))).
    assert (Hg1 : ∀ q, getPlace w1 q = getPlace w q) by done.
    destruct (Place_addBee_spec (hive_place h) (nextBee w) w1 Hhp)
      as (Hl2 & Hb2 & Hf2 & _ & _ & Ha2 & Hn2).
    set (w2 := Place_addBee (hive_place h) (nextBee w) w1) in *.
    destruct (IH (wave ++ [nextBee w]) w2) as (w' & Heq & Hl & Hb & Hf & Ha & Hn).
    { rewrite Hl2. exact Hhp. }
    exists w'.
    split. { rewrite Heq, Hn2, <- app_assoc. reflexivity. }
    split. { rewrite Hl, Hl2. reflexivity. }
    split. { rewrite Hb, Hb2, Hg1, Hn2, <- app_assoc. reflexivity. }
    split. { intros q Hq. by rewrite Hf, Hf2, Hg1. }
    split. { rewrite Ha, Ha2. reflexivity. }
    rewrite Hn, Hn2. simpl. lia.
Qed.

(** The game that the two constructors build, a colony with tunnels and then
    a hive, is in the shape the statement on [invade] asks for. *)
Lemma constructed_game_shape (startingFood : Z) (T L : nat) (moat : Z) (armor damage : Z)
      (w : World) :
  0 < T → 0 < L →
  let c := (new_AntColony startingFood T L moat w).1 in
  let h := (new_Hive armor damage (new_AntColony startingFood T L moat w).2).1 in
  let w' := (new_Hive armor damage (new_AntColony startingFood T L moat w).2).2 in
  hive_place h < length (heap w') ∧
  Forall (λ e, e < length (heap w')) (beeEntrances c) ∧
  (hive_place h ∉ beeEntrances c) ∧
  Forall (λ b, b < nextBee w') (bees (getPlace w' (hive_place h))) ∧
  beeEntrances c ≠ [].
Proof.
  intros HT HL c h w'.
  destruct (new_AntColony_spec startingFood T L moat w HL) as (w1 & Heq & _ & _ & Hlen & _).
  assert (Hc : beeEntrances c = (λ i, S (length (heap w)) + i * L + (L - 1)) <$> seq 0 T).
  { unfold c. by rewrite Heq. }
  assert (Hh : hive_place h = length (heap w1)).
  { unfold h. by rewrite Heq. }
  assert (Hw : heap w' = heap w1 ++ [new_Place "Hive" false None]).
  { unfold w'. by rewrite Heq. }
  assert (Hin : ∀ e, e ∈ beeEntrances c → e < length (heap w1)).
  { intros e He. rewrite Hc in He. apply list_elem_of_fmap in He as (i & -> & Hi).
    apply elem_of_seq in Hi. rewrite Hlen. nia. }
  clearbody c h w'.
  split; [rewrite Hh, Hw, length_app; simpl; lia|].
  split.
  { apply Forall_forall. intros e He. apply Hin in He.
    rewrite Hw, length_app. simpl. lia. }
  split; [intros He; apply Hin in He; lia|].
  split.
  { replace (bees (getPlace w' (hive_place h))) with (@nil nat); [constructor|].
    unfold getPlace. rewrite Hw, Hh, lookup_app_r by lia.
    by rewrite Nat.sub_diag. }
  rewrite Hc. destruct T; [lia|discriminate].
Qed.

(** C8 (as the code has it): on a colony that has at least one entrance and
    in any state in which a wave is scheduled for turn [t], the call
    [invade(colony, t)] returns that wave; it takes the first occurrence of
    each bee of the wave out of the array of the hive, so that, the array
    holding no bee twice, it is left with exactly the bees it had that are not
    of the wave; every bee of the wave is in the array of an entrance of the
    colony, which is also the place the bee refers to; the other places only
    gain bees, those that are neither the hive nor an entrance are unchanged,
    and so are the other bees and the defenders.  In particular, after
    [addWave(t, n)] the call [invade(colony, t)] returns the wave of [n] bees
    that was scheduled, and the array of the hive is back to what it was
    before the wave was added.  On every colony, [invade] for a turn with no
    wave returns an empty array and changes nothing. *)
Theorem invade_releases_wave :
  (∀ (t : Z) (h : Hive) (c : AntColony) (rnd : nat → Q) (w : World) (wave : list Bee),
     hive_place h < length (heap w) →
     Forall (λ e, e < length (heap w)) (beeEntrances c) →
     hive_place h ∉ beeEntrances c →
     (∀ k, (0 <= rnd k)%Q ∧ (rnd k < 1)%Q) →
     beeEntrances c ≠ [] →
     waves h !! t = Some wave →
     ∃ w2,
       Hive_invade h c t rnd w = Ret wave w2 ∧
       bees (getPlace w2 (hive_place h))
         = foldl (λ l b, remove_first b l) (bees (getPlace w (hive_place h))) wave ∧
       (NoDup (bees (getPlace w (hive_place h))) →
          ∀ b, b ∈ bees (getPlace w2 (hive_place h)) ↔
               b ∈ bees (getPlace w (hive_place h)) ∧ b ∉ wave) ∧
       (∀ b, b ∈ wave →
          ∃ e, e ∈ beeEntrances c ∧ b ∈ bees (getPlace w2 e) ∧
               (NoDup wave → bee_place (beeState w2 b) = Some e)) ∧
       (∀ q, q ≠ hive_place h →
          ∃ added, bees (getPlace w2 q) = bees (getPlace w q) ++ added) ∧
       (∀ q, q ∉ beeEntrances c → q ≠ hive_place h → getPlace w2 q = getPlace w q) ∧
       (∀ b, b ∉ wave → beeState w2 b = beeState w b) ∧
       antStore w2 = antStore w ∧ length (heap w2) = length (heap w)) ∧
  (∀ (t : Z) (n : nat) (h : Hive) (c : AntColony) (rnd : nat → Q) (w : World),
     hive_place h < length (heap w) →
     Forall (λ e, e < length (heap w)) (beeEntrances c) →
     hive_place h ∉ beeEntrances c →
     Forall (λ b, b < nextBee w) (bees (getPlace w (hive_place h))) →
     (∀ k, (0 <= rnd k)%Q ∧ (rnd k < 1)%Q) →
     beeEntrances c ≠ [] →
     ∃ wave w2,
       waves (Hive_addWave t n h w).1 !! t = Some wave ∧ length wave = n ∧
       (∀ b, b ∈ wave → b ∈ bees (getPlace (Hive_addWave t n h w).2 (hive_place h))) ∧
       Hive_invade (Hive_addWave t n h w).1 c t rnd (Hive_addWave t n h w).2 = Ret wave w2 ∧
       bees (getPlace w2 (hive_place h)) = bees (getPlace w (hive_place h)) ∧
       (∀ b, b ∈ wave →
          (b ∉ bees (getPlace w2 (hive_place h))) ∧
          (∃ e, e ∈ beeEntrances c ∧ b ∈ bees (getPlace w2 e) ∧
                bee_place (beeState w2 b) = Some e)) ∧
       (∀ q, q ∉ beeEntrances c → q ≠ hive_place h → getPlace w2 q = getPlace w q)) ∧
  (∀ (t : Z) (h : Hive) (c : AntColony) (rnd : nat → Q) (w : World),
     waves h !! t = None → Hive_invade h c t rnd w = Ret [] w).
Proof.
  split; [|split].
  - intros t h c rnd w wave Hhp Hents Hhive Hrnd Hne Hwave.
    destruct (invade_forEach_spec h (beeEntrances c) rnd wave Hne Hhive Hrnd 0 w Hhp Hents)
      as (w2 & Hrun & Hl2 & Hb2 & Hgain & Hmem & Hframe & Hothers & Hants & _).
    exists w2.
    split; [unfold Hive_invade; by rewrite Hwave, Hrun|].
    split; [done|].
    split.
    { intros Hnd b. rewrite Hb2. by apply remove_first_fold_NoDup. }
    split; [done|]. split; [done|]. split; [done|]. split; [done|]. done.
  - intros t n h c rnd w Hhp Hents Hhive Hfresh Hrnd Hne.
    destruct (addWave_loop_spec h n [] w Hhp) as (w1 & Heq & Hl1 & Hb1 & Hf1 & Ha1 & Hn1).
    rewrite app_nil_l in Heq.
    unfold Hive_addWave. rewrite Heq. simpl.
    set (h1 := mkHive (hive_place h) (beeArmor h) (beeDamage h)
                      (<[t := seq (nextBee w) n]> (waves h))).
    assert (Hfr : ∀ b, b ∈ seq (nextBee w) n → b ∉ bees (getPlace w (hive_place h))).
    { intros b Hb Hin. apply elem_of_seq in Hb.
      rewrite Forall_forall in Hfresh. specialize (Hfresh b Hin). simpl in Hfresh. lia. }
    destruct (invade_forEach_spec h1 (beeEntrances c) rnd (seq (nextBee w) n)
                Hne Hhive Hrnd 0 w1) as (w2 & Hrun & Hl2 & Hb2 & _ & Hmem & Hframe & _).
    { simpl. by rewrite Hl1. }
    { by rewrite Hl1. }
    simpl in Hb2, Hframe.
    assert (Hpen : bees (getPlace w2 (hive_place h)) = bees (getPlace w (hive_place h))).
    { rewrite Hb2, Hb1. apply remove_first_wave; [apply NoDup_seq|done]. }
    exists (seq (nextBee w) n), w2.
    split; [by rewrite lookup_insert_eq|].
    split; [by rewrite length_seq|].
    split; [intros b Hb; rewrite Hb1; apply elem_of_app; by right|].
    split.
    { unfold Hive_invade. simpl. rewrite lookup_insert_eq. by rewrite Hrun. }
    split; [done|].
    split.
    { intros b Hb. split; [rewrite Hpen; by apply Hfr|].
      destruct (Hmem b Hb) as (e & He & Hin & Hback).
      exists e. split; [done|]. split; [done|]. apply Hback, NoDup_seq. }
    intros q Hq Hqh. rewrite Hframe by done. by apply Hf1.
  - intros t h c rnd w Hnone. unfold Hive_invade. by rewrite Hnone.
Qed.

(** ** AntGame.takeTurn *)



Section Turn.

Variable Ant_act : Ant → AntColony → World → AntColony * World.
Variable Bee_act : Bee → World → World.
Variable new_Ant : AntClass → World → Ant * World.
Variable lookupPlace : string → list (list nat) → option (option nat).


End Turn.

(** ** The statements on the example states *)

(** A second regular defender is refused at address 1, which holds a
    thrower. *)
Lemma addAnt_slot_exclusive_witness :
  heap ex_world_thrower !! 1 = Some (getPlace ex_world_thrower 1) ∧
  Place_addAnt 1 ex_eater ex_world_thrower = (false, ex_world_thrower) ∧
  (∃ w', Place_addAnt 1 ex_guard ex_world_thrower = (true, w') ∧
         ant_place (antState w' ex_guard) = Some 1).
Proof.
  assert (H : heap ex_world_thrower !! 1 = Some (getPlace ex_world_thrower 1))
    by (vm_compute; reflexivity).
  destruct (addAnt_slot_exclusive 1 ex_world_thrower _ H) as (Hfree & Htaken & _).
  split; [exact H|]. split.
  - apply Htaken. vm_compute. discriminate.
  - destruct (Hfree ex_guard) as (w' & Hw' & _ & _ & Hplace); [vm_compute; reflexivity|].
    exists w'. split; [exact Hw'|exact Hplace].
Defined.

(** Removing "the thrower" at address 1 takes the guard away. *)
Lemma removeInsect_ant_takes_guard_witness :
  heap ex_world_guarded !! 1 = Some (getPlace ex_world_guarded 1) ∧
  guard (getPlace ex_world_guarded 1) = Some ex_guard ∧
  ant (getPlace ex_world_guarded 1) = Some ex_thrower ∧
  ∃ pl', heap (Place_removeInsect 1 (AnAnt ex_thrower) ex_world_guarded) !! 1 = Some pl' ∧
         guard pl' = None ∧ ant pl' = Some ex_thrower.
Proof.
  assert (H : heap ex_world_guarded !! 1 = Some (getPlace ex_world_guarded 1))
    by (vm_compute; reflexivity).
  assert (Hg : guard (getPlace ex_world_guarded 1) = Some ex_guard) by (vm_compute; reflexivity).
  assert (Ha : ant (getPlace ex_world_guarded 1) = Some ex_thrower) by (vm_compute; reflexivity).
  destruct (removeInsect_ant_takes_guard 1 ex_world_guarded _ ex_guard ex_thrower H Hg Ha)
    as ((pl' & Hpl' & Hg' & Ha' & _) & _).
  split; [exact H|]. split; [exact Hg|]. split; [exact Ha|].
  exists pl'. split; [exact Hpl'|]. split; [exact Hg'|exact Ha'].
Defined.

(** The water at address 2 takes the guard and the thrower away. *)
Lemma act_washes_defenders_witness :
  heap ex_world_water !! 2 = Some (getPlace ex_world_water 2) ∧
  water (getPlace ex_world_water 2) = true ∧
  ∃ pl', heap (Place_act 2 ex_world_water) !! 2 = Some pl' ∧
         guard pl' = None ∧ ant pl' = None.
Proof.
  assert (H : heap ex_world_water !! 2 = Some (getPlace ex_world_water 2))
    by (vm_compute; reflexivity).
  assert (Hw : water (getPlace ex_world_water 2) = true) by (vm_compute; reflexivity).
  destruct (act_washes_defenders 2 ex_world_water _ H) as (Hwater & _).
  destruct (Hwater Hw) as (pl' & Hpl' & Hg' & Ha' & _).
  split; [exact H|]. split; [exact Hw|].
  exists pl'. split; [exact Hpl'|]. split; [exact Hg'|exact Ha'].
Defined.

(** A defender of cost 50 is refused with 10 of food; one of cost 4 is
    placed in the regular slot of address 1 and leaves 6 of food. *)
Lemma deployAnt_food_and_reasons_witness :
  heap ex_world !! 1 = Some (getPlace ex_world 1) ∧
  (food ex_colony < getFoodCost ex_costly)%Z ∧
  AntColony_deployAnt ex_costly 1 ex_colony ex_world
    = (Some "not enough food", ex_colony, ex_world) ∧
  ∃ c' w' pl', AntColony_deployAnt ex_thrower 1 ex_colony ex_world = (None, c', w') ∧
        food c' = 6%Z ∧ heap w' !! 1 = Some pl' ∧ ant pl' = Some ex_thrower ∧
        ant_place (antState w' ex_thrower) = Some 1.
Proof.
  assert (H : heap ex_world !! 1 = Some (getPlace ex_world 1)) by (vm_compute; reflexivity).
  assert (Hlt : (food ex_colony < getFoodCost ex_costly)%Z) by (vm_compute; reflexivity).
  split; [exact H|]. split; [exact Hlt|]. split.
  - destruct (deployAnt_food_and_reasons ex_costly 1 ex_colony ex_world _ H) as (Hfood & _).
    exact (Hfood Hlt).
  - destruct (deployAnt_food_and_reasons ex_thrower 1 ex_colony ex_world _ H)
      as (_ & _ & Hfree & _).
    destruct Hfree as (c' & w' & pl' & Hrun & _ & Hf & _ & _ & _ & _ & Hpl & _ & _ & Hreg
                       & _ & _ & _ & _ & _ & _ & _ & Hback & _).
    + vm_compute. discriminate.
    + vm_compute. reflexivity.
    + exists c', w', pl'. split; [exact Hrun|]. split; [exact Hf|]. split; [exact Hpl|].
      split; [|exact Hback].
      apply Hreg. vm_compute. discriminate.
Defined.



(** No bee anywhere: the game is won; two bees in the tunnel: it goes on. *)
Lemma gameIsWon_outcomes_witness :
  bees (getPlace ex_world (queenPlace ex_colony)) = [] ∧
  total_invaders (new_AntGame ex_colony ex_hive) ex_world = 0 ∧
  AntGame_gameIsWon (new_AntGame ex_colony ex_hive) ex_world = Some true ∧
  AntGame_gameIsWon (new_AntGame ex_colony ex_hive) ex_world_bees = None.
Proof.
  destruct (gameIsWon_outcomes (new_AntGame ex_colony ex_hive) ex_world) as (_ & Hwon & _).
  destruct (gameIsWon_outcomes (new_AntGame ex_colony ex_hive) ex_world_bees) as (_ & _ & Hon).
  assert (Hq : bees (getPlace ex_world (queenPlace ex_colony)) = []) by (vm_compute; reflexivity).
  assert (Ht : total_invaders (new_AntGame ex_colony ex_hive) ex_world = 0)
    by (vm_compute; reflexivity).
  split; [exact Hq|]. split; [exact Ht|]. split.
  - exact (Hwon Hq Ht).
  - apply Hon; vm_compute; [reflexivity|discriminate].
Defined.

(** From address 1 the closest bee within 3 hops is the first one of
    address 2. *)
Lemma getClosestBee_first_qualifying_witness :
  (0 ≤ 3)%Z ∧ (0 ≤ 0)%Z ∧
  ∃ b, head (bees (getPlace ex_world_bees 2)) = Some b ∧
       Place_getClosestBee 1 3 0 ex_world_bees = Some b.
Proof.
  assert (H3 : (0 ≤ 3)%Z) by lia.
  assert (H0 : (0 ≤ 0)%Z) by lia.
  destruct (getClosestBee_first_qualifying 1 3 0 ex_world_bees H3 H0) as (Hfound & _).
  split; [exact H3|]. split; [exact H0|].
  apply (Hfound 1 2).
  - split; [lia|]. exists 2. split; [vm_compute; reflexivity|vm_compute; discriminate].
  - vm_compute. reflexivity.
  - intros d' Hd' [_ (q & Hq & Hb)].
    assert (d' = 0) as -> by lia.
    simpl in Hq. injection Hq as <-. apply Hb. vm_compute. reflexivity.
Defined.

(** One tunnel of two places. *)
Lemma new_AntColony_grid_witness :
  1 ≤ 1 ∧ 1 ≤ 2 ∧
  length (beeEntrances (new_AntColony 10 1 2 2 empty_world).1) = 1 ∧
  NoDup (beeEntrances (new_AntColony 10 1 2 2 empty_world).1).
Proof.
  assert (HT : 1 ≤ 1) by lia.
  assert (HL : 1 ≤ 2) by lia.
  destruct (new_AntColony_grid 10 1 2 2 empty_world HT HL) as (Hlen & Hnd & _).
  split; [exact HT|]. split; [exact HL|]. split; [exact Hlen|exact Hnd].
Defined.

(** C5, counterexample: in a tunnel of two places, the place of step 1 is
    not the first of its tunnel and has no [entrance]. *)
Lemma entrance_defined_except_first_counterexample :
  ¬ entrance_defined_except_first ex_colony ex_world.
Proof.
  intros H.
  apply (H 0 1 2 (getPlace ex_world 2)); [| |lia|]; vm_compute; reflexivity.
Qed.

Lemma zero_random_range : ∀ k : nat, (0 <= zero_random k)%Q ∧ (zero_random k < 1)%Q.
Proof. intros k. split; reflexivity || (vm_compute; discriminate). Qed.

(** After [addWave(0,1).addWave(1,1)] on the one-tunnel colony, [invade] of
    turn 0 returns the bee of the first wave and leaves the bee of the second
    one in the hive; a wave of three bees scheduled for turn 5 enters the
    colony and leaves the hive as it was. *)
Lemma invade_releases_wave_witness :
  hive_place ex_hive_two_waves < length (heap ex_world_two_waves) ∧
  beeEntrances ex_colony ≠ [] ∧
  waves ex_hive_two_waves !! 0%Z = Some [0] ∧
  (∃ w2, Hive_invade ex_hive_two_waves ex_colony 0 zero_random ex_world_two_waves
           = Ret [0] w2 ∧
         bees (getPlace w2 (hive_place ex_hive_two_waves)) = [1] ∧
         ∃ e, e ∈ beeEntrances ex_colony ∧ 0 ∈ bees (getPlace w2 e) ∧
              bee_place (beeState w2 0) = Some e) ∧
  hive_place ex_hive < length (heap ex_world) ∧
  ∃ wave w2,
    Hive_invade (Hive_addWave 5 3 ex_hive ex_world).1 ex_colony 5 zero_random
                (Hive_addWave 5 3 ex_hive ex_world).2 = Ret wave w2 ∧
    length wave = 3 ∧
    bees (getPlace w2 (hive_place ex_hive)) = bees (getPlace ex_world (hive_place ex_hive)).
Proof.
  assert (Hhp : hive_place ex_hive < length (heap ex_world)) by (vm_compute; lia).
  assert (Hhp2 : hive_place ex_hive_two_waves < length (heap ex_world_two_waves))
    by (vm_compute; lia).
  assert (Hne : beeEntrances ex_colony ≠ []) by (vm_compute; discriminate).
  assert (Hents : Forall (λ e, e < length (heap ex_world)) (beeEntrances ex_colony)).
  { apply Forall_forall. intros e He. vm_compute in He.
    apply elem_of_cons in He as [->|He]; [vm_compute; lia|by apply elem_of_nil in He]. }
  assert (Hents2 : Forall (λ e, e < length (heap ex_world_two_waves)) (beeEntrances ex_colony)).
  { apply Forall_forall. intros e He. vm_compute in He.
    apply elem_of_cons in He as [->|He]; [vm_compute; lia|by apply elem_of_nil in He]. }
  assert (Hhive : hive_place ex_hive ∉ beeEntrances ex_colony).
  { intros He. vm_compute in He.
    apply elem_of_cons in He as [He|He]; [discriminate|by apply elem_of_nil in He]. }
  assert (Hhive2 : hive_place ex_hive_two_waves ∉ beeEntrances ex_colony).
  { intros He. vm_compute in He.
    apply elem_of_cons in He as [He|He]; [discriminate|by apply elem_of_nil in He]. }
  assert (Hfresh : Forall (λ b, b < nextBee ex_world)
                          (bees (getPlace ex_world (hive_place ex_hive)))).
  { vm_compute. constructor. }
  assert (Hsched : waves ex_hive_two_waves !! 0%Z = Some [0]) by (vm_compute; reflexivity).
  destruct invade_releases_wave as (Hany & Hwave & _).
  destruct (Hany 0%Z ex_hive_two_waves ex_colony zero_random ex_world_two_waves [0]
                 Hhp2 Hents2 Hhive2 zero_random_range Hne Hsched)
    as (w3 & Hinv3 & Hpen3 & _ & Hmem3 & _).
  destruct (Hwave 5%Z 3 ex_hive ex_colony zero_random ex_world
                  Hhp Hents Hhive Hfresh zero_random_range Hne)
    as (wave & w2 & _ & Hlen & _ & Hinv & Hpen & _).
  split; [exact Hhp2|]. split; [exact Hne|]. split; [exact Hsched|]. split.
  { exists w3. split; [exact Hinv3|]. split; [exact Hpen3|].
    destruct (Hmem3 0) as (e & He & Hin & Hback); [by left|].
    exists e. split; [exact He|]. split; [exact Hin|].
    apply Hback. apply NoDup_singleton. }
  split; [exact Hhp|].
  exists wave, w2. split; [exact Hinv|]. split; [exact Hlen|exact Hpen].
Defined.

(** C8, counterexample: on the colony that has no tunnel, [invade] for the
    turn of the wave throws: it does not return the wave. *)
Lemma invade_returns_wave_counterexample :
  ¬ invade_returns_wave bare_hive bare_colony 0 zero_random bare_world.
Proof.
  intros (wave & w' & _ & H). vm_compute in H. discriminate.
Qed.



(** ** Place.addBee, Place.removeBee, Place.removeAllBees, Place.exitBee *)

(** X1: [removeBee] of a bee that the place does not hold changes nothing at
    all; of a bee that it holds, it takes the first occurrence out of the
    array, keeps the others in their order, clears the back-reference of the
    bee, and leaves the defenders of the place, the other places and the other
    bees as they were. *)
Theorem removeBee_first_occurrence (p : nat) (b : nat) (w : World) :
  (b ∉ bees (getPlace w p) → Place_removeBee p b w = w) ∧
  (p < length (heap w) →
   ∀ l1 l2, bees (getPlace w p) = l1 ++ b :: l2 → b ∉ l1 →
     bees (getPlace (Place_removeBee p b w) p) = l1 ++ l2 ∧
     bee_place (beeState (Place_removeBee p b w) b) = None ∧
     ant (getPlace (Place_removeBee p b w) p) = ant (getPlace w p) ∧
     guard (getPlace (Place_removeBee p b w) p) = guard (getPlace w p) ∧
     (∀ q, q ≠ p → getPlace (Place_removeBee p b w) q = getPlace w q) ∧
     (∀ b', b' ≠ b → beeState (Place_removeBee p b w) b' = beeState w b')).
Proof.
  split.
  - intros Hb. unfold Place_removeBee. by rewrite indexOf_absent.
  - intros Hp l1 l2 Hl Hl1.
    destruct (Place_removeBee_spec p b w Hp) as (_ & Hb & Hf & Hs & _ & _).
    rewrite Hb, Hl, remove_first_middle by done.
    split; [done|].
    assert (Hidx : indexOf b (bees (getPlace w p)) = Some (length l1))
      by (rewrite Hl; by apply indexOf_middle).
    unfold Place_removeBee. rewrite Hidx.
    split; [unfold beeState; simpl; by rewrite lookup_insert_eq|].
    split.
    { change (getPlace (Bee_setPlace b None ?x) p) with (getPlace x p).
      by rewrite getPlace_putPlace_eq. }
    split.
    { change (getPlace (Bee_setPlace b None ?x) p) with (getPlace x p).
      by rewrite getPlace_putPlace_eq. }
    split.
    { intros q Hq. change (getPlace (Bee_setPlace b None ?x) q) with (getPlace x q).
      by rewrite getPlace_putPlace_ne. }
    intros b' Hb'. unfold beeState. simpl. by rewrite lookup_insert_ne.
Qed.

Lemma getPlace_allocated (w : World) (p : nat) :
  p < length (heap w) → heap w !! p = Some (getPlace w p).
Proof.
  intros Hp. unfold getPlace. destruct (heap w !! p) as [pl|] eqn:E; [done|].
  apply lookup_ge_None in E. lia.
Qed.

Lemma getPlace_unallocated (w : World) (p : nat) :
  length (heap w) ≤ p → getPlace w p = new_Place "" false None.
Proof. intros Hp. unfold getPlace. by rewrite lookup_ge_None_2. Qed.

Lemma getPlace_putPlace (w : World) (p q : nat) (f : Place → Place) :
  f (new_Place "" false None) = new_Place "" false None →
  getPlace (putPlace p (f (getPlace w p)) w) q
  = if decide (q = p) then f (getPlace w p) else getPlace w q.
Proof.
  intros Hf. destruct (decide (q = p)) as [->|Hne].
  - destruct (decide (p < length (heap w))) as [Hp|Hp].
    + by apply getPlace_putPlace_eq.
    + rewrite (getPlace_unallocated w p) by lia. rewrite Hf.
      apply getPlace_unallocated. simpl. rewrite length_insert. lia.
  - by apply getPlace_putPlace_ne.
Qed.

(** [removeBee] only edits the array of bees of its place. *)
Lemma Place_removeBee_places (p : nat) (b : nat) (w : World) (q : nat) :
  getPlace (Place_removeBee p b w) q
  = if decide (q = p) then set_bees (remove_first b (bees (getPlace w p))) (getPlace w p)
    else getPlace w q.
Proof.
  unfold Place_removeBee, remove_first.
  destruct (indexOf b (bees (getPlace w p))) as [i|] eqn:E.
  - change (getPlace (Bee_setPlace b None ?x) q) with (getPlace x q).
    destruct (decide (p < length (heap w))) as [Hp|Hp].
    + destruct (decide (q = p)) as [->|Hne].
      * by apply getPlace_putPlace_eq.
      * by apply getPlace_putPlace_ne.
    + rewrite (getPlace_unallocated w p) in E by lia. done.
  - destruct (decide (q = p)) as [->|Hne]; [|done].
    by destruct (getPlace w p).
Qed.

Lemma Place_removeBee_length (p : nat) (b : nat) (w : World) :
  length (heap (Place_removeBee p b w)) = length (heap w).
Proof.
  unfold Place_removeBee. destruct (indexOf b (bees (getPlace w p))); [|done].
  simpl. by rewrite length_insert.
Qed.

(** X2: [addBee] puts the bee at the end of the array of the place and makes
    the bee refer to the place; removing the bee again restores the places
    exactly, the bee being left without a place. *)
Theorem addBee_removeBee_round_trip (p : nat) (b : nat) (w : World) :
  p < length (heap w) → b ∉ bees (getPlace w p) →
  bees (getPlace (Place_addBee p b w) p) = bees (getPlace w p) ++ [b] ∧
  bee_place (beeState (Place_addBee p b w) b) = Some p ∧
  heap (Place_removeBee p b (Place_addBee p b w)) = heap w ∧
  bee_place (beeState (Place_removeBee p b (Place_addBee p b w)) b) = None ∧
  (∀ b', b' ≠ b →
     beeState (Place_removeBee p b (Place_addBee p b w)) b' = beeState w b').
Proof.
  intros Hp Hb.
  destruct (Place_addBee_spec p b w Hp) as (Hl1 & Hb1 & Hf1 & Hp1 & Hs1 & _).
  set (w1 := Place_addBee p b w) in *.
  assert (Hidx : indexOf b (bees (getPlace w1 p)) = Some (length (bees (getPlace w p))))
    by (rewrite Hb1; by apply indexOf_middle).
  split; [done|]. split; [done|].
  unfold Place_removeBee. rewrite Hidx.
  split; [|split].
  - assert (Hg1 : getPlace w1 p
                  = set_bees (bees (getPlace w p) ++ [b]) (getPlace w p)).
    { unfold w1, Place_addBee.
      change (getPlace (Bee_setPlace b (Some p) ?x) p) with (getPlace x p).
      by rewrite getPlace_putPlace_eq. }
    simpl. rewrite Hb1, delete_middle, app_nil_r, Hg1, list_insert_insert_eq.
    apply list_insert_id. rewrite (getPlace_allocated w p Hp). f_equal.
    by destruct (getPlace w p).
  - unfold beeState. simpl. by rewrite lookup_insert_eq.
  - intros b' Hb'. unfold beeState at 1. simpl. rewrite lookup_insert_ne by done.
    apply Hs1. done.
Qed.

Lemma setPlace_all_None (l : list nat) :
  ∀ w, let w1 := foldl (λ acc b, Bee_setPlace b None acc) w l in
       heap w1 = heap w ∧ antStore w1 = antStore w ∧
       (∀ b, b ∈ l → bee_place (beeState w1 b) = None) ∧
       (∀ b, b ∉ l → beeState w1 b = beeState w b).
Proof.
  induction l as [|x l IH]; intros w; simpl.
  - repeat split; auto. intros b Hb. by apply elem_of_nil in Hb.
  - destruct (IH (Bee_setPlace x None w)) as (Hh & Ha & Hin & Hout).
    split; [done|]. split; [done|]. split.
    + intros b Hb. destruct (decide (b ∈ l)) as [Hl|Hl]; [by apply Hin|].
      apply elem_of_cons in Hb as [->|Hb]; [|done].
      rewrite Hout by done. unfold beeState. simpl. by rewrite lookup_insert_eq.
    + intros b Hb. apply not_elem_of_cons in Hb as [Hne Hb].
      rewrite Hout by done. unfold beeState. simpl. by rewrite lookup_insert_ne.
Qed.

Lemma Place_removeAllBees_places (p : nat) (w : World) (q : nat) :
  getPlace (Place_removeAllBees p w) q
  = if decide (q = p) then set_bees [] (getPlace w p) else getPlace w q.
Proof.
  unfold Place_removeAllBees.
  destruct (setPlace_all_None (bees (getPlace w p)) w) as (Hh & _).
  set (w1 := foldl _ w _) in *.
  assert (Hg : ∀ r, getPlace w1 r = getPlace w r) by (intros r; unfold getPlace; by rewrite Hh).
  rewrite (getPlace_putPlace w1 p q (set_bees [])) by done.
  by rewrite !Hg.
Qed.

(** X3: [removeAllBees] empties the array of the place and clears the
    back-reference of every bee that was in it; the defenders of the place,
    the other places and the other bees are as before. *)
Theorem removeAllBees_clears (p : nat) (w : World) :
  bees (getPlace (Place_removeAllBees p w) p) = [] ∧
  ant (getPlace (Place_removeAllBees p w) p) = ant (getPlace w p) ∧
  guard (getPlace (Place_removeAllBees p w) p) = guard (getPlace w p) ∧
  (∀ q, q ≠ p → getPlace (Place_removeAllBees p w) q = getPlace w q) ∧
  (∀ b, b ∈ bees (getPlace w p) → bee_place (beeState (Place_removeAllBees p w) b) = None) ∧
  (∀ b, b ∉ bees (getPlace w p) → beeState (Place_removeAllBees p w) b = beeState w b).
Proof.
  pose proof (Place_removeAllBees_places p w) as Hpl.
  split; [by rewrite Hpl, decide_True|].
  split; [by rewrite Hpl, decide_True|].
  split; [by rewrite Hpl, decide_True|].
  split; [intros q Hq; by rewrite Hpl, decide_False|].
  destruct (setPlace_all_None (bees (getPlace w p)) w) as (_ & _ & Hin & Hout).
  split; [intros b Hb; by apply Hin|intros b Hb; by apply Hout].
Qed.

(** X4: [exitBee] on a place without [exit] throws, after the bee has been
    taken out of the array of the place.  On a place with an [exit] it returns:
    the first occurrence of the bee has left the array of the place, the bee
    is at the end of the array of the exit and refers to the exit, and no
    other place has changed; the bee joins the exit even when the place did
    not hold it, and when the place held it the two arrays together keep their
    number of bees. *)
Theorem exitBee_moves_or_throws (p : nat) (b : nat) (w : World) :
  (exit (getPlace w p) = None →
     ∃ w1, Place_exitBee p b w = Throw w1 ∧
           bees (getPlace w1 p) = remove_first b (bees (getPlace w p))) ∧
  (∀ e, exit (getPlace w p) = Some e → e < length (heap w) → e ≠ p →
     ∃ w', Place_exitBee p b w = Ret tt w' ∧
       bees (getPlace w' p) = remove_first b (bees (getPlace w p)) ∧
       bees (getPlace w' e) = bees (getPlace w e) ++ [b] ∧
       bee_place (beeState w' b) = Some e ∧
       (∀ q, q ≠ p → q ≠ e → getPlace w' q = getPlace w q) ∧
       (b ∈ bees (getPlace w p) →
          length (bees (getPlace w' p)) + length (bees (getPlace w' e))
          = length (bees (getPlace w p)) + length (bees (getPlace w e)))).
Proof.
  pose proof (Place_removeBee_places p b w) as Hpl.
  assert (Hex : exit (getPlace (Place_removeBee p b w) p) = exit (getPlace w p)).
  { by rewrite Hpl, decide_True. }
  split.
  - intros Hnone. exists (Place_removeBee p b w). unfold Place_exitBee.
    rewrite Hex, Hnone. split; [done|]. by rewrite Hpl, decide_True.
  - intros e He Hlen Hne. unfold Place_exitBee. rewrite Hex, He.
    set (w1 := Place_removeBee p b w) in *.
    destruct (Place_addBee_spec e b w1) as (_ & Hb2 & Hf2 & Hp2 & _).
    { unfold w1. by rewrite Place_removeBee_length. }
    eexists. split; [done|].
    assert (Hp' : bees (getPlace (Place_addBee e b w1) p)
                  = remove_first b (bees (getPlace w p))).
    { rewrite Hf2 by done. by rewrite Hpl, decide_True. }
    assert (He' : bees (getPlace (Place_addBee e b w1) e) = bees (getPlace w e) ++ [b]).
    { rewrite Hb2, Hpl. by rewrite decide_False. }
    split; [done|]. split; [done|]. split; [done|]. split.
    + intros q Hq Hqe. rewrite Hf2 by done. by rewrite Hpl, decide_False.
    + intros Hin. rewrite Hp', He', length_app. simpl.
      destruct (list_elem_of_split_l _ _ Hin) as (l1 & l2 & Hl & Hl1).
      rewrite Hl, remove_first_middle by done. rewrite !length_app. simpl. lia.
Qed.

(** X5: a bee that leaves a place whose [exit] is the queen's place loses
    the game: [exitBee] returns and [gameIsWon] is [false] afterwards. *)
Theorem exitBee_into_queen_loses (g : AntGame) (p : nat) (b : nat) (w : World) :
  exit (getPlace w p) = Some (queenPlace (colony g)) →
  queenPlace (colony g) < length (heap w) →
  ∃ w', Place_exitBee p b w = Ret tt w' ∧ AntGame_gameIsWon g w' = Some false.
Proof.
  intros Hexit Hq. unfold Place_exitBee.
  assert (Hex : exit (getPlace (Place_removeBee p b w) p) = exit (getPlace w p)).
  { by rewrite Place_removeBee_places, decide_True. }
  rewrite Hex, Hexit. eexists. split; [done|].
  destruct (Place_addBee_spec (queenPlace (colony g)) b (Place_removeBee p b w))
    as (_ & Hb2 & _).
  { by rewrite Place_removeBee_length. }
  unfold AntGame_gameIsWon, AntColony_queenHasBees, Place_getBees.
  rewrite Hb2, length_app. simpl.
  replace (length (bees (getPlace (Place_removeBee p b w) (queenPlace (colony g)))) + 1)
    with (S (length (bees (getPlace (Place_removeBee p b w) (queenPlace (colony g))))))
    by lia.
  reflexivity.
Qed.

Lemma Place_removeAllBees_states (p : nat) (w : World) :
  (∀ b, b ∈ bees (getPlace w p) → bee_place (beeState (Place_removeAllBees p w) b) = None) ∧
  (∀ b, b ∉ bees (getPlace w p) → beeState (Place_removeAllBees p w) b = beeState w b).
Proof.
  destruct (setPlace_all_None (bees (getPlace w p)) w) as (_ & _ & Hin & Hout).
  split; [intros b Hb; by apply Hin|intros b Hb; by apply Hout].
Qed.

Lemma Place_removeBee_clears (p : nat) (b : nat) (w : World) :
  b ∈ bees (getPlace w p) → bee_place (beeState (Place_removeBee p b w) b) = None.
Proof.
  intros Hin. destruct (list_elem_of_split_l _ _ Hin) as (l1 & l2 & Hl & Hl1).
  unfold Place_removeBee. rewrite Hl, indexOf_middle by done.
  unfold beeState. simpl. by rewrite lookup_insert_eq.
Qed.

Lemma removeBee_consistent (p : nat) (b : nat) (w : World) :
  bees_consistent w → bees_consistent (Place_removeBee p b w).
Proof.
  intros Hc. destruct (decide (b ∈ bees (getPlace w p))) as [Hin|Hout].
  - assert (Hp : p < length (heap w)).
    { destruct (decide (p < length (heap w))) as [|Hge]; [done|].
      rewrite (getPlace_unallocated w p) in Hin by lia. by apply elem_of_nil in Hin. }
    destruct (Place_removeBee_spec p b w Hp) as (_ & Hb & Hf & Hs & _).
    destruct (Hc p) as [Hnd Hback].
    destruct (remove_first_NoDup b _ Hnd) as (Hnd' & Hnot & Hmem).
    intros q. destruct (decide (q = p)) as [->|Hne].
    + rewrite Hb. split; [done|].
      intros x Hx. apply Hmem in Hx as [Hx Hxb]. rewrite Hs by done. by apply Hback.
    + rewrite Hf by done. destruct (Hc q) as [Hndq Hbackq]. split; [done|].
      intros x Hx. destruct (decide (x = b)) as [->|Hxb].
      * apply Hbackq in Hx. apply Hback in Hin. congruence.
      * rewrite Hs by done. by apply Hbackq.
  - unfold Place_removeBee. by rewrite indexOf_absent.
Qed.

Lemma addBee_consistent (p : nat) (b : nat) (w : World) :
  p < length (heap w) → bee_place (beeState w b) = None →
  bees_consistent w → bees_consistent (Place_addBee p b w).
Proof.
  intros Hp Hnone Hc.
  assert (Hfree : ∀ q, b ∉ bees (getPlace w q)).
  { intros q Hin. destruct (Hc q) as [_ Hback]. apply Hback in Hin. congruence. }
  destruct (Place_addBee_spec p b w Hp) as (_ & Hb & Hf & Hbp & Hs & _).
  intros q. destruct (decide (q = p)) as [->|Hne].
  - rewrite Hb. destruct (Hc p) as [Hnd Hback]. split.
    + apply NoDup_app. split; [done|]. split; [|apply NoDup_singleton].
      intros x Hx Hx'. apply list_elem_of_singleton in Hx' as ->. by apply (Hfree p).
    + intros x Hx. apply elem_of_app in Hx as [Hx|Hx].
      * rewrite Hs; [by apply Hback|]. intros ->. by apply (Hfree p).
      * apply list_elem_of_singleton in Hx as ->. done.
  - rewrite Hf by done. destruct (Hc q) as [Hnd Hback]. split; [done|].
    intros x Hx. rewrite Hs; [by apply Hback|]. intros ->. by apply (Hfree q).
Qed.

(** X6: the arrays of bees and the back-references of the bees stay in
    agreement under the moves of the engine.  When no place lists a bee twice
    and every listed bee refers to its place, the same holds after
    [removeBee], after [removeAllBees], after [addBee] of a bee that has no
    place, and after an [exitBee] that returns for a bee of the place; and
    under this agreement a bee is in the array of at most one place. *)
Theorem bee_moves_keep_consistency (w : World) :
  bees_consistent w →
  (∀ p b, bees_consistent (Place_removeBee p b w)) ∧
  (∀ p, bees_consistent (Place_removeAllBees p w)) ∧
  (∀ p b, p < length (heap w) → bee_place (beeState w b) = None →
          bees_consistent (Place_addBee p b w)) ∧
  (∀ p b e w', exit (getPlace w p) = Some e → e < length (heap w) →
               b ∈ bees (getPlace w p) →
               Place_exitBee p b w = Ret tt w' → bees_consistent w') ∧
  (∀ p q b, b ∈ bees (getPlace w p) → b ∈ bees (getPlace w q) → p = q).
Proof.
  intros Hc. split; [|split; [|split; [|split]]].
  - intros p b. by apply removeBee_consistent.
  - intros p q. rewrite Place_removeAllBees_places.
    destruct (Place_removeAllBees_states p w) as (Hin & Hout).
    destruct (decide (q = p)) as [->|Hne].
    + simpl. split; [apply NoDup_nil_2|]. intros b Hb. by apply elem_of_nil in Hb.
    + destruct (Hc q) as [Hnd Hback]. split; [done|].
      intros b Hb. rewrite Hout; [by apply Hback|].
      intros Hbp. destruct (Hc p) as [_ Hbackp].
      apply Hbackp in Hbp. apply Hback in Hb. congruence.
  - intros p b Hp Hnone. by apply addBee_consistent.
  - intros p b e w' Hexit He Hin Hrun. unfold Place_exitBee in Hrun.
    assert (Hex : exit (getPlace (Place_removeBee p b w) p) = exit (getPlace w p)).
    { by rewrite Place_removeBee_places, decide_True. }
    rewrite Hex, Hexit in Hrun. injection Hrun as <-.
    apply addBee_consistent.
    + by rewrite Place_removeBee_length.
    + by apply Place_removeBee_clears.
    + by apply removeBee_consistent.
  - intros p q b Hbp Hbq.
    destruct (Hc p) as [_ Hp]. destruct (Hc q) as [_ Hq].
    apply Hp in Hbp. apply Hq in Hbq. congruence.
Qed.

(** ** Place.removeAnt and AntColony.deployAnt together *)

(** X7: [removeAnt] returns what [getAnt] shows, the guard before the regular
    defender; after it [getAnt] shows the regular defender that a guard
    shielded, or nothing; two calls empty both slots; on a place without any
    defender it returns [undefined] and changes nothing.  It never touches
    the bees of the place nor the insects: the defender taken away keeps its
    reference to the place. *)
Theorem removeAnt_guard_then_regular (p : nat) (w : World) (pl : Place) :
  heap w !! p = Some pl →
  (Place_removeAnt p w).1 = Place_getAnt p w ∧
  Place_getAnt p (Place_removeAnt p w).2
    = (match guard pl with Some _ => ant pl | None => None end) ∧
  guard (getPlace (Place_removeAnt p (Place_removeAnt p w).2).2 p) = None ∧
  ant (getPlace (Place_removeAnt p (Place_removeAnt p w).2).2 p) = None ∧
  (guard pl = None → ant pl = None → Place_removeAnt p w = (None, w)) ∧
  bees (getPlace (Place_removeAnt p w).2 p) = bees pl ∧
  antStore (Place_removeAnt p w).2 = antStore w.
Proof.
  intros Hp. pose proof (lookup_lt_Some _ _ _ Hp) as Hlt.
  unfold Place_getAnt. rewrite (getPlace_lookup _ _ _ Hp).
  destruct (guard pl) as [g|] eqn:Hg.
  - rewrite (Place_removeAnt_guarded p w pl g Hp Hg). simpl.
    rewrite (getPlace_putPlace_eq w p _ Hlt). simpl.
    rewrite (Place_removeAnt_unguarded p _ (set_guard None pl));
      [|by apply heap_putPlace_eq|done].
    simpl. rewrite getPlace_putPlace_eq by (simpl; by rewrite length_insert).
    repeat split; try done.
  - rewrite (Place_removeAnt_unguarded p w pl Hp Hg). simpl.
    rewrite (getPlace_putPlace_eq w p _ Hlt). simpl. rewrite Hg.
    rewrite (Place_removeAnt_unguarded p _ (set_ant None pl));
      [|by apply heap_putPlace_eq|done].
    simpl. rewrite getPlace_putPlace_eq by (simpl; by rewrite length_insert).
    repeat split; try done.
    intros _ Ha. rewrite Ha. f_equal.
    destruct w as [h a b n]. unfold putPlace. simpl in *. f_equal.
    apply list_insert_id. rewrite Hp. f_equal.
    destruct pl; simpl in *; by subst.
Qed.

(** X8: a defender that [deployAnt] has just placed is the one that
    [removeAnt] takes away, the places being as before the deployment, when it
    is a guard or when the place holds no guard; a regular defender placed
    under a guard stays, and it is the guard that [removeAnt] takes.  The
    defender keeps its reference to the place in both cases. *)
Theorem deployAnt_then_removeAnt (a : Ant) (p : nat) (c : AntColony) (w : World) (pl : Place) :
  heap w !! p = Some pl → (getFoodCost a ≤ food c)%Z → slot_of a pl = None →
  ∃ w', AntColony_deployAnt a p c w = (None, set_food (food c - getFoodCost a)%Z c, w') ∧
    (instanceofGuardAnt a = true ∨ guard pl = None →
       (Place_removeAnt p w').1 = Some a ∧ heap (AntColony_removeAnt p w') = heap w) ∧
    (instanceofGuardAnt a = false → ∀ g, guard pl = Some g →
       (Place_removeAnt p w').1 = Some g ∧
       ant (getPlace (AntColony_removeAnt p w') p) = Some a ∧
       guard (getPlace (AntColony_removeAnt p w') p) = None) ∧
    ant_place (antState (AntColony_removeAnt p w') a) = Some p.
Proof.
  intros Hp Hfood Hslot. pose proof (lookup_lt_Some _ _ _ Hp) as Hlt.
  unfold AntColony_deployAnt. apply Z.leb_le in Hfood. rewrite Hfood.
  rewrite (Place_addAnt_free p a w pl Hp Hslot). eexists. split; [done|].
  set (w' := Ant_setPlace a (Some p) (putPlace p (bind_slot a pl) w)).
  assert (Hp' : heap w' !! p = Some (bind_slot a pl)) by by apply heap_after_addAnt_free.
  assert (Hstore : antStore (Place_removeAnt p w').2 = antStore w').
  { unfold Place_removeAnt. by destruct (guard (getPlace w' p)). }
  unfold AntColony_removeAnt, slot_of, bind_slot in *.
  split; [|split].
  - intros Hor. destruct (instanceofGuardAnt a) eqn:Hga.
    + rewrite (Place_removeAnt_guarded p w' _ a Hp') by done. simpl.
      split; [done|]. rewrite list_insert_insert_eq. apply list_insert_id.
      rewrite Hp. f_equal. destruct pl; simpl in *; by subst.
    + destruct Hor as [|Hg]; [done|].
      rewrite (Place_removeAnt_unguarded p w' _ Hp') by done. simpl.
      split; [done|]. rewrite list_insert_insert_eq. apply list_insert_id.
      rewrite Hp. f_equal. destruct pl; simpl in *; by subst.
  - intros Hga g Hg. rewrite Hga in *.
    rewrite (Place_removeAnt_guarded p w' _ g Hp') by done. simpl.
    split; [done|].
    rewrite getPlace_putPlace_eq by (unfold w'; simpl; by rewrite length_insert).
    done.
  - unfold antState. rewrite Hstore. unfold w'. simpl.
    by rewrite lookup_insert_eq.
Qed.

(** X9: on an empty place, after a first deployment a second defender of
    the same kind is refused with 'tunnel already occupied' and the food has
    been taken once only; a second defender of the other kind is placed
    beside the first, both costs are taken, [getAnt] shows the guard and
    [getGuardedAnt] the regular defender. *)
Theorem deployAnt_twice (a1 a2 : Ant) (p : nat) (c : AntColony) (w : World) (pl : Place) :
  heap w !! p = Some pl → ant pl = None → guard pl = None →
  (getFoodCost a1 ≤ food c)%Z → (getFoodCost a2 ≤ food c - getFoodCost a1)%Z →
  ∃ w1, AntColony_deployAnt a1 p c w
        = (None, set_food (food c - getFoodCost a1)%Z c, w1) ∧
    (instanceofGuardAnt a1 = instanceofGuardAnt a2 →
       AntColony_deployAnt a2 p (set_food (food c - getFoodCost a1)%Z c) w1
       = (Some "tunnel already occupied", set_food (food c - getFoodCost a1)%Z c, w1)) ∧
    (instanceofGuardAnt a1 ≠ instanceofGuardAnt a2 →
       ∃ w2, AntColony_deployAnt a2 p (set_food (food c - getFoodCost a1)%Z c) w1
             = (None, set_food (food c - getFoodCost a1 - getFoodCost a2)%Z c, w2) ∧
         Place_getAnt p w2 = Some (if instanceofGuardAnt a1 then a1 else a2) ∧
         Place_getGuardedAnt p w2 = Some (if instanceofGuardAnt a1 then a2 else a1)).
Proof.
  intros Hp Ha Hg Hf1 Hf2.
  assert (Hs1 : slot_of a1 pl = None).
  { unfold slot_of. by destruct (instanceofGuardAnt a1). }
  unfold AntColony_deployAnt at 1. apply Z.leb_le in Hf1. rewrite Hf1.
  rewrite (Place_addAnt_free p a1 w pl Hp Hs1). eexists. split; [done|].
  set (w1 := Ant_setPlace a1 (Some p) (putPlace p (bind_slot a1 pl) w)).
  assert (Hp1 : heap w1 !! p = Some (bind_slot a1 pl)) by by apply heap_after_addAnt_free.
  unfold AntColony_deployAnt. simpl. apply Z.leb_le in Hf2. rewrite Hf2.
  split.
  - intros Hkind.
    rewrite (Place_addAnt_taken p a2 w1 _ Hp1); [done|].
    unfold slot_of, bind_slot. rewrite <- Hkind.
    by destruct (instanceofGuardAnt a1).
  - intros Hkind.
    assert (Hs2 : slot_of a2 (bind_slot a1 pl) = None).
    { unfold slot_of, bind_slot.
      destruct (instanceofGuardAnt a1), (instanceofGuardAnt a2); done. }
    rewrite (Place_addAnt_free p a2 w1 _ Hp1 Hs2). eexists. split; [done|].
    unfold Place_getAnt, Place_getGuardedAnt.
    change (getPlace (Ant_setPlace a2 (Some p) ?x) p) with (getPlace x p).
    rewrite getPlace_putPlace_eq by (by eapply lookup_lt_Some).
    unfold bind_slot.
    destruct (instanceofGuardAnt a1), (instanceofGuardAnt a2); simpl; by rewrite ?Hg.
Qed.

(** ** AntColony.addBoost *)

Lemma eqb_proto_false (b : string) : b ≠ "__proto__" → String.eqb b "__proto__" = false.
Proof. intros H. by apply String.eqb_neq. Qed.

Lemma boosts_get_set_eq (b : string) (v : BoostValue) (m : gmap string BoostValue) :
  b ≠ "__proto__" → boosts_get (boosts_set b v m) b = Some v.
Proof.
  intros Hne. unfold boosts_get, boosts_set. rewrite (eqb_proto_false b Hne).
  by rewrite lookup_insert_eq.
Qed.

Lemma boosts_get_set_ne (b b' : string) (v : BoostValue) (m : gmap string BoostValue) :
  b' ≠ b → boosts_get (boosts_set b v m) b' = boosts_get m b'.
Proof.
  intros Hne. unfold boosts_get, boosts_set.
  destruct (String.eqb b "__proto__"); [done|].
  by rewrite lookup_insert_ne.
Qed.

Lemma boosts_set_lookup_ne (b b' : string) (v : BoostValue) (m : gmap string BoostValue) :
  b' ≠ b → boosts_set b v m !! b' = m !! b'.
Proof.
  intros Hne. unfold boosts_set. destruct (String.eqb b "__proto__"); [done|].
  by rewrite lookup_insert_ne.
Qed.

Lemma addBoost_lookup (b : string) (c : AntColony) :
  boosts (AntColony_addBoost b c) = boosts_set b (added (boosts_get (boosts c) b)) (boosts c).
Proof.
  unfold AntColony_addBoost.
  destruct (boosts_get (boosts c) b) as [[n|]|] eqn:E; simpl.
  - by rewrite E.
  - by rewrite E.
  - apply boosts_get_undefined in E as (Hne & _ & _).
    rewrite boosts_get_set_eq by done. simpl.
    unfold boosts_set. rewrite (eqb_proto_false b Hne). by rewrite insert_insert_eq.
Qed.

Lemma counts_nonneg_get (c : AntColony) (b : string) (n : Z) :
  counts_nonneg c → boosts_get (boosts c) b = Some (Count n) → (0 ≤ n)%Z.
Proof.
  intros Hc. unfold boosts_get. destruct (String.eqb b "__proto__"); [done|].
  destruct (boosts c !! b) as [v|] eqn:E.
  - intros [= ->]. by apply (Hc b (Count n)).
  - by destruct (bool_decide (b ∈ Object_prototype_methods)).
Qed.

(** X10: [addBoost] raises the count of the boost by one, and gives the count
    one to a name under which the inventory answers [undefined]; under a name
    that holds a value that is not a number (a name inherited from
    [Object.prototype], 'toString' for one) it stores no count: the value
    stays one that is not a number.  Under every other name the inventory
    answers as before, and the food and the grid are as they were; for
    [__proto__] nothing at all is stored.  Counts that are not negative stay
    so, as they are in a new colony, and then [applyBoost] of the boost just
    added does not answer 'no such boost'. *)
Theorem addBoost_counts (b : string) (c : AntColony) :
  (∀ n, boosts_get (boosts c) b = Some (Count n) →
        boosts_get (boosts (AntColony_addBoost b c)) b = Some (Count (n + 1)) ∧
        boostCount (AntColony_addBoost b c) b = (boostCount c b + 1)%Z) ∧
  (boosts_get (boosts c) b = None →
        boosts_get (boosts (AntColony_addBoost b c)) b = Some (Count 1) ∧
        boostCount (AntColony_addBoost b c) b = (boostCount c b + 1)%Z) ∧
  (boosts_get (boosts c) b = Some NotANumber →
        boosts_get (boosts (AntColony_addBoost b c)) b = Some NotANumber ∧
        boostCount (AntColony_addBoost b c) b = 0%Z) ∧
  (b ∈ Object_prototype_methods → boosts c !! b = None →
        boosts (AntColony_addBoost b c) !! b = Some NotANumber) ∧
  (b = "__proto__" → boosts (AntColony_addBoost b c) = boosts c) ∧
  (∀ b', b' ≠ b →
        boosts (AntColony_addBoost b c) !! b' = boosts c !! b' ∧
        boosts_get (boosts (AntColony_addBoost b c)) b' = boosts_get (boosts c) b') ∧
  food (AntColony_addBoost b c) = food c ∧
  places (AntColony_addBoost b c) = places c ∧
  beeEntrances (AntColony_addBoost b c) = beeEntrances c ∧
  queenPlace (AntColony_addBoost b c) = queenPlace c ∧
  (counts_nonneg c → counts_nonneg (AntColony_addBoost b c)) ∧
  (∀ f T L m w, counts_nonneg (new_AntColony f T L m w).1) ∧
  (counts_nonneg c →
   ∀ p w, (AntColony_applyBoost b p (AntColony_addBoost b c) w).1.1 ≠ Some "no such boost").
Proof.
  pose proof (addBoost_lookup b c) as Hb.
  assert (Hproto : b = "__proto__" → boosts (AntColony_addBoost b c) = boosts c).
  { intros ->. by rewrite Hb. }
  assert (Hget : boosts_get (boosts (AntColony_addBoost b c)) b
                 = Some (added (boosts_get (boosts c) b))).
  { destruct (decide (b = "__proto__")) as [Heq|Hne].
    - rewrite (Hproto Heq). subst b. done.
    - rewrite Hb. by apply boosts_get_set_eq. }
  assert (Hfields : food (AntColony_addBoost b c) = food c ∧
                    places (AntColony_addBoost b c) = places c ∧
                    beeEntrances (AntColony_addBoost b c) = beeEntrances c ∧
                    queenPlace (AntColony_addBoost b c) = queenPlace c).
  { unfold AntColony_addBoost. by destruct (boosts_get (boosts c) b). }
  destruct Hfields as (Hfood & Hplaces & Hents & Hqueen).
  split.
  { intros n Hn. unfold boostCount. rewrite Hget, Hn. done. }
  split.
  { intros Hn. unfold boostCount. rewrite Hget, Hn. done. }
  split.
  { intros Hn. unfold boostCount. rewrite Hget, Hn. done. }
  split.
  { intros Hin Hm.
    assert (Hne : b ≠ "__proto__").
    { intros ->. revert Hin. apply (bool_decide_eq_false_1 _). by vm_compute. }
    rewrite Hb. unfold boosts_set. rewrite (eqb_proto_false b Hne), lookup_insert_eq.
    by rewrite (boosts_get_inherited (boosts c) b) by (right; done). }
  split; [done|].
  split.
  { intros b' Hne. rewrite Hb.
    split; [by apply boosts_set_lookup_ne|by apply boosts_get_set_ne]. }
  split; [done|]. split; [done|]. split; [done|]. split; [done|].
  split; [|split].
  - intros Hc. unfold counts_nonneg. rewrite Hb. unfold boosts_set.
    destruct (String.eqb b "__proto__"); [done|].
    apply map_Forall_insert_2; [|done].
    destruct (boosts_get (boosts c) b) as [[n|]|] eqn:E; simpl; [|done|lia].
    pose proof (counts_nonneg_get c b n Hc E). lia.
  - intros f T L m w. unfold new_AntColony. simpl.
    destruct (tunnels_loop T 0 L m _ [] [] _) as [[grid ents] w1]. simpl.
    unfold counts_nonneg, initial_boosts. simpl.
    repeat (apply map_Forall_insert_2; [lia|]). apply map_Forall_empty.
  - intros Hc p w. unfold AntColony_applyBoost. rewrite Hget.
    assert (Hguard : boost_unavailable (Some (added (boosts_get (boosts c) b))) = false).
    { destruct (boosts_get (boosts c) b) as [[n|]|] eqn:E; simpl; [|done|done].
      pose proof (counts_nonneg_get c b n Hc E). apply Z.ltb_ge. lia. }
    rewrite Hguard. by destruct (Place_getAnt p w).
Qed.

(** ** AntColony.placesAct *)

Lemma Place_act_stores (p : nat) (w : World) :
  antStore (Place_act p w) = antStore w ∧ beeStore (Place_act p w) = beeStore w.
Proof.
  destruct (heap w !! p) as [pl|] eqn:Hp.
  - destruct (water pl) eqn:Hw.
    + by destruct (Place_act_water p w pl Hp Hw) as (_ & Ha & Hb).
    + unfold Place_act. by rewrite (getPlace_lookup _ _ _ Hp), Hw.
  - assert (Hd : getPlace w p = new_Place "" false None) by (unfold getPlace; by rewrite Hp).
    unfold Place_act. by rewrite Hd.
Qed.

Lemma Place_act_places (p : nat) (w : World) (q : nat) :
  getPlace (Place_act p w) q
  = if decide (q = p) then washed (getPlace w p) else getPlace w q.
Proof.
  destruct (heap w !! p) as [pl|] eqn:Hp.
  - rewrite (getPlace_lookup _ _ _ Hp). unfold washed.
    destruct (water pl) eqn:Hw.
    + destruct (Place_act_water p w pl Hp Hw) as (Hh & _).
      unfold getPlace at 1. rewrite Hh.
      destruct (decide (q = p)) as [->|Hne].
      * rewrite list_lookup_insert_eq by (by eapply lookup_lt_Some). done.
      * by rewrite list_lookup_insert_ne.
    + unfold Place_act. rewrite (getPlace_lookup _ _ _ Hp), Hw.
      destruct (decide (q = p)) as [->|Hne]; [by apply getPlace_lookup|done].
  - assert (Hd : getPlace w p = new_Place "" false None) by (unfold getPlace; by rewrite Hp).
    unfold Place_act. rewrite Hd. simpl.
    destruct (decide (q = p)) as [->|Hne]; done.
Qed.

Lemma washed_idempotent (pl : Place) : washed (washed pl) = washed pl.
Proof.
  unfold washed. destruct (water pl) eqn:Hw; [|by rewrite Hw]. simpl. rewrite Hw.
  destruct (instanceofScubaAnt (ant pl)) eqn:Hs; simpl; [by rewrite Hs|done].
Qed.

Lemma placesAct_places (l : list nat) :
  ∀ (w : World) (q : nat),
    getPlace (foldl (λ acc p, Place_act p acc) w l) q
    = if decide (q ∈ l) then washed (getPlace w q) else getPlace w q.
Proof.
  induction l as [|x l IH]; intros w q; simpl.
  - done.
  - rewrite IH, Place_act_places.
    destruct (decide (q = x)) as [->|Hne].
    + rewrite (decide_True (P := x ∈ x :: l)) by (by left).
      destruct (decide (x ∈ l)); [apply washed_idempotent|done].
    + destruct (decide (q ∈ l)) as [Hin|Hout].
      * rewrite decide_True by (by right). done.
      * rewrite decide_False; [done|]. intros Hq. apply elem_of_cons in Hq as [|]; done.
Qed.

Lemma placesAct_stores (l : list nat) :
  ∀ w, antStore (foldl (λ acc p, Place_act p acc) w l) = antStore w ∧
       beeStore (foldl (λ acc p, Place_act p acc) w l) = beeStore w.
Proof.
  induction l as [|x l IH]; intros w; simpl; [done|].
  destruct (IH (Place_act x w)) as [Ha Hb]. destruct (Place_act_stores x w) as [Ha' Hb'].
  split; congruence.
Qed.

(** X11: after [placesAct], every water place of the grid is without guard
    and holds no other regular defender than a [ScubaAnt] that was there; the
    places of the grid that are not water and the places outside the grid are
    as before; no array of bees and no insect has changed; and a second
    [placesAct] changes no place. *)
Theorem placesAct_washes_grid (c : AntColony) (w : World) :
  (∀ p, p ∈ all_places c → water (getPlace w p) = true →
     guard (getPlace (AntColony_placesAct c w) p) = None ∧
     ant (getPlace (AntColony_placesAct c w) p)
     = (if instanceofScubaAnt (ant (getPlace w p)) then ant (getPlace w p) else None)) ∧
  (∀ p, p ∉ all_places c ∨ water (getPlace w p) = false →
     getPlace (AntColony_placesAct c w) p = getPlace w p) ∧
  (∀ p, bees (getPlace (AntColony_placesAct c w) p) = bees (getPlace w p)) ∧
  antStore (AntColony_placesAct c w) = antStore w ∧
  beeStore (AntColony_placesAct c w) = beeStore w ∧
  (∀ p, getPlace (AntColony_placesAct c (AntColony_placesAct c w)) p
        = getPlace (AntColony_placesAct c w) p).
Proof.
  unfold AntColony_placesAct.
  pose proof (placesAct_places (all_places c)) as Hpl.
  split; [|split; [|split; [|split; [|split]]]].
  - intros p Hin Hw. rewrite Hpl, decide_True by done. unfold washed. by rewrite Hw.
  - intros p [Hout|Hw]; rewrite Hpl.
    + by rewrite decide_False.
    + destruct (decide (p ∈ all_places c)); [|done]. unfold washed. by rewrite Hw.
  - intros p. rewrite Hpl. destruct (decide (p ∈ all_places c)); [|done].
    unfold washed. by destruct (water (getPlace w p)).
  - apply placesAct_stores.
  - apply placesAct_stores.
  - intros p. rewrite !Hpl. destruct (decide (p ∈ all_places c)); [|done].
    apply washed_idempotent.
Qed.

(** ** Place.getClosestBee, the range *)

Lemma getClosestBee_loop_extend (w : World) (minDistance : Z) (b : nat) (n : nat) :
  ∀ (n' : nat) (p : option nat) (dist maxDistance maxDistance' : Z),
    n ≤ n' → (maxDistance ≤ maxDistance')%Z →
    getClosestBee_loop n w p dist maxDistance minDistance = Some b →
    getClosestBee_loop n' w p dist maxDistance' minDistance = Some b.
Proof.
  induction n as [|n IH]; intros n' p dist mx mx' Hn Hmx Hrun; [done|].
  destruct n' as [|n']; [lia|]. simpl in *.
  destruct p as [a|]; [|done].
  destruct (dist <=? mx)%Z eqn:Hd; [|done].
  apply Z.leb_le in Hd.
  replace (dist <=? mx')%Z with true by (symmetry; apply Z.leb_le; lia).
  destruct ((minDistance <=? dist)%Z && negb (Nat.eqb (length (bees (getPlace w a))) 0));
    [done|].
  apply (IH n' _ _ mx mx'); [lia|done|done].
Qed.

Lemma getClosestBee_loop_window (w : World) (maxDistance minDistance : Z) (n : nat) :
  ∀ (p : option nat) (dist : Z),
    (maxDistance < minDistance)%Z →
    getClosestBee_loop n w p dist maxDistance minDistance = None.
Proof.
  induction n as [|n IH]; intros p dist Hwin; [done|]. simpl.
  destruct p as [a|]; [|done].
  destruct (dist <=? maxDistance)%Z eqn:Hd; [|done].
  apply Z.leb_le in Hd.
  replace (minDistance <=? dist)%Z with false by (symmetry; apply Z.leb_gt; lia).
  simpl. by apply IH.
Qed.

(** X12: a larger [maxDistance] never changes the bee that [getClosestBee]
    finds: a bee found within [maxDistance] is the bee found within any larger
    bound, for the same [minDistance].  With [maxDistance] below
    [minDistance], or negative, the result is [undefined]. *)
Theorem getClosestBee_range (p : nat) (minDistance : Z) (w : World) :
  (∀ maxDistance maxDistance' b,
     (maxDistance ≤ maxDistance')%Z →
     Place_getClosestBee p maxDistance minDistance w = Some b →
     Place_getClosestBee p maxDistance' minDistance w = Some b) ∧
  (∀ maxDistance, (maxDistance < minDistance)%Z ∨ (maxDistance < 0)%Z →
     Place_getClosestBee p maxDistance minDistance w = None).
Proof.
  split.
  - intros mx mx' b Hle Hrun. unfold Place_getClosestBee in *.
    apply (getClosestBee_loop_extend w minDistance b (S (Z.to_nat mx)) _ _ _ mx mx');
      [lia|done|done].
  - intros mx [Hwin|Hneg]; unfold Place_getClosestBee.
    + by apply getClosestBee_loop_window.
    + replace (Z.to_nat mx) with 0 by lia. simpl.
      by replace (0 <=? mx)%Z with false by (symmetry; apply Z.leb_gt; lia).
Qed.

(** ** Hive.addWave, the bees of a wave *)

Lemma addWave_loop_states (h : Hive) (n : nat) :
  ∀ (wave : list nat) (w : World) (b : nat),
    beeState (addWave_loop n h wave w).2 b
    = if decide (nextBee w ≤ b < nextBee w + n)
      then mkBeeState (beeArmor h) (beeDamage h) (Some (hive_place h))
      else beeState w b.
Proof.
  induction n as [|n IH]; intros wave w b; simpl.
  - rewrite decide_False by lia. done.
  - rewrite IH. simpl.
    destruct (decide (b = nextBee w)) as [->|Hne].
    + rewrite decide_False by lia. rewrite decide_True by lia.
      unfold Place_addBee, Bee_setPlace, putPlace, beeState. simpl.
      by rewrite !lookup_insert_eq.
    + destruct (decide (S (nextBee w) ≤ b < S (nextBee w + n))) as [Hin|Hout].
      * by rewrite decide_True by lia.
      * rewrite decide_False by lia.
        unfold Place_addBee, Bee_setPlace, putPlace, beeState. simpl.
        by rewrite !lookup_insert_ne.
Qed.

Lemma Hive_addWave_consistent (t : Z) (n : nat) (h : Hive) (w : World) :
  hive_place h < length (heap w) →
  bees_consistent w → (∀ p b, b ∈ bees (getPlace w p) → b < nextBee w) →
  bees_consistent (Hive_addWave t n h w).2.
Proof.
  intros Hhp Hc Hfresh.
  destruct (addWave_loop_spec h n [] w Hhp) as (w1 & Heq & Hl1 & Hb1 & Hf1 & Ha1 & Hn1).
  pose proof (addWave_loop_states h n [] w) as Hst.
  unfold Hive_addWave. rewrite Heq in *. simpl in *.
  intros q. destruct (decide (q = hive_place h)) as [->|Hne].
  - rewrite Hb1. destruct (Hc (hive_place h)) as [Hnd Hback]. split.
    + apply NoDup_app. split; [done|]. split; [|apply NoDup_seq].
      intros b Hb Hb'. apply elem_of_seq in Hb'. apply Hfresh in Hb. lia.
    + intros b Hb. rewrite Hst. apply elem_of_app in Hb as [Hb|Hb].
      * rewrite decide_False by (apply Hfresh in Hb; lia). by apply Hback.
      * apply elem_of_seq in Hb. by rewrite decide_True by lia.
  - rewrite Hf1 by done. destruct (Hc q) as [Hnd Hback]. split; [done|].
    intros b Hb. rewrite Hst, decide_False by (apply Hfresh in Hb; lia). by apply Hback.
Qed.

(** X13: [addWave(t, n)] creates [n] bees with identities that were not in
    use, with the armor and the damage of the hive and the hive as their
    place; it puts them, in the order of their creation, at the end of the
    array of the hive and records them as the wave of turn [t], replacing what
    was recorded for [t] and leaving the waves of the other turns, the other
    places and the bees that existed as they were.  When the arrays and the
    back-references of the bees agreed and no identity in use is ahead of the
    counter, they still agree afterwards. *)
Theorem addWave_schedules (t : Z) (n : nat) (h : Hive) (w : World) :
  hive_place h < length (heap w) →
  waves (Hive_addWave t n h w).1 !! t = Some (seq (nextBee w) n) ∧
  (∀ t', t' ≠ t → waves (Hive_addWave t n h w).1 !! t' = waves h !! t') ∧
  hive_place (Hive_addWave t n h w).1 = hive_place h ∧
  bees (getPlace (Hive_addWave t n h w).2 (hive_place h))
    = bees (getPlace w (hive_place h)) ++ seq (nextBee w) n ∧
  (∀ q, q ≠ hive_place h → getPlace (Hive_addWave t n h w).2 q = getPlace w q) ∧
  nextBee (Hive_addWave t n h w).2 = nextBee w + n ∧
  (∀ b, b ∈ seq (nextBee w) n →
     beeState (Hive_addWave t n h w).2 b
     = mkBeeState (beeArmor h) (beeDamage h) (Some (hive_place h))) ∧
  (∀ b, b < nextBee w → beeState (Hive_addWave t n h w).2 b = beeState w b) ∧
  (bees_consistent w → (∀ p b, b ∈ bees (getPlace w p) → b < nextBee w) →
     bees_consistent (Hive_addWave t n h w).2).
Proof.
  intros Hhp.
  destruct (addWave_loop_spec h n [] w Hhp) as (w1 & Heq & Hl1 & Hb1 & Hf1 & Ha1 & Hn1).
  pose proof (addWave_loop_states h n [] w) as Hst.
  rewrite app_nil_l in Heq.
  unfold Hive_addWave. rewrite Heq in *. simpl in *.
  assert (Hnew : ∀ b, b ∈ seq (nextBee w) n →
            beeState w1 b = mkBeeState (beeArmor h) (beeDamage h) (Some (hive_place h))).
  { intros b Hb. apply elem_of_seq in Hb. by rewrite Hst, decide_True by lia. }
  assert (Hold : ∀ b, b < nextBee w → beeState w1 b = beeState w b).
  { intros b Hb. by rewrite Hst, decide_False by lia. }
  split; [by rewrite lookup_insert_eq|].
  split; [intros t' Hne; by rewrite lookup_insert_ne|].
  split; [done|]. split; [done|]. split; [done|]. split; [done|].
  split; [done|]. split; [done|].
  intros Hc Hfresh.
  pose proof (Hive_addWave_consistent t n h w Hhp Hc Hfresh) as Hcons.
  unfold Hive_addWave in Hcons. by rewrite Heq in Hcons.
Qed.

(** X14: a second [addWave] for a turn that already has a wave leaves the
    bees of the first wave in the hive without a turn: [invade] for that turn
    returns the second wave only, the bees of the first wave are still in the
    array of the hive afterwards, and when there is at least one of them
    [gameIsWon] is not [true]. *)
Theorem addWave_twice_strands_first_wave (t : Z) (n m : nat) (h : Hive) (c : AntColony)
        (rnd : nat → Q) (w : World) :
  hive_place h < length (heap w) →
  Forall (λ e, e < length (heap w)) (beeEntrances c) →
  hive_place h ∉ beeEntrances c →
  Forall (λ b, b < nextBee w) (bees (getPlace w (hive_place h))) →
  (∀ k, (0 <= rnd k)%Q ∧ (rnd k < 1)%Q) →
  beeEntrances c ≠ [] →
  let h1 := (Hive_addWave t n h w).1 in
  let w1 := (Hive_addWave t n h w).2 in
  let h2 := (Hive_addWave t m h1 w1).1 in
  let w2 := (Hive_addWave t m h1 w1).2 in
  ∃ w3, Hive_invade h2 c t rnd w2 = Ret (seq (nextBee w + n) m) w3 ∧
        bees (getPlace w3 (hive_place h))
        = bees (getPlace w (hive_place h)) ++ seq (nextBee w) n ∧
        (0 < n → ∀ g, hive_place (hive g) = hive_place h →
                      AntGame_gameIsWon g w3 ≠ Some true).
Proof.
  intros Hhp Hents Hhive Hfresh Hrnd Hne h1 w1 h2 w2.
  destruct (addWave_loop_spec h n [] w Hhp) as (v1 & Heq1 & Hl1 & Hb1 & Hf1 & Ha1 & Hn1).
  rewrite app_nil_l in Heq1.
  assert (Hh1 : h1 = mkHive (hive_place h) (beeArmor h) (beeDamage h)
                       (<[t := seq (nextBee w) n]> (waves h))).
  { unfold h1, Hive_addWave. by rewrite Heq1. }
  assert (Hw1 : w1 = v1). { unfold w1, Hive_addWave. by rewrite Heq1. }
  clearbody h1 w1. subst h1 w1.
  set (h1 := mkHive _ _ _ _) in *.
  destruct (addWave_loop_spec h1 m [] v1) as (v2 & Heq2 & Hl2 & Hb2 & Hf2 & Ha2 & Hn2).
  { simpl. by rewrite Hl1. }
  rewrite app_nil_l in Heq2. simpl in Hb2.
  assert (Hh2 : h2 = mkHive (hive_place h) (beeArmor h) (beeDamage h)
                       (<[t := seq (nextBee v1) m]> (waves h1))).
  { unfold h2, Hive_addWave. by rewrite Heq2. }
  assert (Hw2 : w2 = v2). { unfold w2, Hive_addWave. by rewrite Heq2. }
  clearbody h2 w2. subst h2 w2.
  set (h2 := mkHive (hive_place h) (beeArmor h) (beeDamage h)
                    (<[t := seq (nextBee v1) m]> (waves h1))).
  assert (Hlk : waves h2 !! t = Some (seq (nextBee v1) m)) by apply lookup_insert_eq.
  destruct (invade_forEach_spec h2 (beeEntrances c) rnd (seq (nextBee v1) m)
              Hne Hhive Hrnd 0 v2)
    as (w3 & Hrun & _ & Hb3 & _).
  { simpl. by rewrite Hl2, Hl1. }
  { by rewrite Hl2, Hl1. }
  simpl in Hb3.
  assert (Hpen : bees (getPlace w3 (hive_place h))
                 = bees (getPlace w (hive_place h)) ++ seq (nextBee w) n).
  { rewrite Hb3, Hb2, Hb1. apply remove_first_wave; [apply NoDup_seq|].
    intros b Hb Hin. apply elem_of_seq in Hb. rewrite Hn1 in Hb.
    apply elem_of_app in Hin as [Hin|Hin].
    - rewrite Forall_forall in Hfresh. specialize (Hfresh b Hin). simpl in Hfresh. lia.
    - apply elem_of_seq in Hin. lia. }
  exists w3. split; [|split].
  - unfold Hive_invade. rewrite Hlk, Hrun. simpl. by rewrite Hn1.
  - exact Hpen.
  - intros Hn g Hg. unfold AntGame_gameIsWon.
    destruct (AntColony_queenHasBees (colony g) w3); [done|].
    unfold Place_getBees. rewrite Hg, Hpen, !length_app, length_seq.
    replace (length (AntColony_getAllBees (colony g) w3)
             + (length (bees (getPlace w (hive_place h))) + n) =? 0) with false
      by (symmetry; apply Nat.eqb_neq; lia).
    done.
Qed.

(** ** A new game *)

Lemma elem_of_concat_inv {A} (x : A) (ls : list (list A)) :
  x ∈ concat ls → ∃ l, l ∈ ls ∧ x ∈ l.
Proof.
  induction ls as [|l ls IH]; simpl; intros Hx.
  - by apply elem_of_nil in Hx.
  - apply elem_of_app in Hx as [Hx|Hx].
    + exists l. split; [by left|done].
    + destruct (IH Hx) as (l' & Hl' & Hx'). exists l'. split; [by right|done].
Qed.

Lemma getAllBees_none (c : AntColony) (w : World) :
  (∀ p, p ∈ all_places c → bees (getPlace w p) = []) → AntColony_getAllBees c w = [].
Proof.
  unfold AntColony_getAllBees, Place_getBees.
  induction (all_places c) as [|x l IH]; intros Hall; simpl; [done|].
  rewrite (Hall x) by (by left). apply IH. intros p Hp. apply Hall. by right.
Qed.

Lemma getAllAnts_none (c : AntColony) (w : World) :
  (∀ p, p ∈ all_places c → ant (getPlace w p) = None ∧ guard (getPlace w p) = None) →
  AntColony_getAllAnts c w = [].
Proof.
  unfold AntColony_getAllAnts, Place_getAnt.
  induction (all_places c) as [|x l IH]; intros Hall; simpl; [done|].
  destruct (Hall x) as [Ha Hg]; [by left|]. rewrite Hg, Ha.
  apply IH. intros p Hp. apply Hall. by right.
Qed.

(** X15: the game that the constructors build, a colony with tunnels of
    length at least one and a hive, starts with the food it was given, at turn
    0, without any defender and without any bee; with no wave it is won at
    once, and as soon as a wave of at least one bee is scheduled it is neither
    won nor lost. *)
Theorem new_game_is_empty (f : Z) (T L : nat) (m : Z) (armor damage : Z) (w : World) :
  0 < L →
  let c := (new_AntColony f T L m w).1 in
  let h := (new_Hive armor damage (new_AntColony f T L m w).2).1 in
  let w' := (new_Hive armor damage (new_AntColony f T L m w).2).2 in
  food c = f ∧
  AntGame_getTurn (new_AntGame c h) = 0%Z ∧
  AntColony_getAllAnts c w' = [] ∧
  AntColony_getAllBees c w' = [] ∧
  AntGame_gameIsWon (new_AntGame c h) w' = Some true ∧
  (∀ t n, 0 < n →
     AntGame_gameIsWon (new_AntGame c (Hive_addWave t n h w').1) (Hive_addWave t n h w').2
     = None).
Proof.
  intros HL c h w'.
  destruct (new_AntColony_spec f T L m w HL) as (w1 & Heq & (e & Hq) & Hcells & Hlen & _).
  assert (Hc : c = mkAntColony f ((λ i, seq (S (length (heap w)) + i * L) L) <$> seq 0 T)
                     ((λ i, S (length (heap w)) + i * L + (L - 1)) <$> seq 0 T)
                     (length (heap w)) initial_boosts).
  { unfold c. by rewrite Heq. }
  assert (Hh : h = mkHive (length (heap w1)) armor damage ∅).
  { unfold h. by rewrite Heq. }
  assert (Hw : heap w' = heap w1 ++ [new_Place "Hive" false None]).
  { unfold w'. by rewrite Heq. }
  clearbody c h w'.
  assert (Hkeep : ∀ p, p < length (heap w1) → getPlace w' p = getPlace w1 p).
  { intros p Hp. unfold getPlace. by rewrite Hw, lookup_app_l. }
  assert (Hgrid : ∀ p, p ∈ all_places c →
            p < length (heap w1) ∧ bees (getPlace w' p) = [] ∧
            ant (getPlace w' p) = None ∧ guard (getPlace w' p) = None).
  { intros p Hp. rewrite Hc in Hp. unfold all_places in Hp. simpl in Hp.
    apply elem_of_concat_inv in Hp as (row & Hrow & Hp).
    apply list_elem_of_fmap in Hrow as (i & -> & Hi).
    apply elem_of_seq in Hi. apply elem_of_seq in Hp.
    assert (Hs : p = S (length (heap w)) + i * L + (p - (S (length (heap w)) + i * L)))
      by lia.
    assert (Hlt : p < length (heap w1)) by (rewrite Hlen; nia).
    split; [done|]. rewrite Hkeep by done.
    rewrite Hs. erewrite getPlace_lookup; [|apply Hcells; lia]. done. }
  assert (Hqueen : bees (getPlace w' (queenPlace c)) = []).
  { rewrite Hc. simpl. rewrite Hkeep by (rewrite Hlen; lia).
    by rewrite (getPlace_lookup _ _ _ Hq). }
  assert (Hhive : bees (getPlace w' (hive_place h)) = []).
  { rewrite Hh. simpl. unfold getPlace.
    rewrite Hw, lookup_app_r by lia. by rewrite Nat.sub_diag. }
  assert (Hbees : AntColony_getAllBees c w' = []).
  { apply getAllBees_none. intros p Hp. by apply Hgrid. }
  split; [by rewrite Hc|]. split; [done|].
  split; [apply getAllAnts_none; intros p Hp; split; by apply Hgrid|].
  split; [done|]. split.
  - unfold AntGame_gameIsWon, AntColony_queenHasBees, Place_getBees. simpl.
    by rewrite Hqueen, Hbees, Hhive.
  - intros t n Hn.
    assert (Hhp : hive_place h < length (heap w')).
    { rewrite Hh, Hw, length_app. simpl. lia. }
    destruct (addWave_loop_spec h n [] w' Hhp) as (w2 & Heq2 & _ & Hb2 & Hf2 & _).
    rewrite app_nil_l in Heq2. unfold Hive_addWave. rewrite Heq2. simpl.
    assert (Hqh : queenPlace c ≠ hive_place h).
    { rewrite Hc, Hh. simpl. rewrite Hlen. lia. }
    unfold AntGame_gameIsWon, AntColony_queenHasBees, Place_getBees. simpl.
    rewrite (Hf2 _ Hqh), Hqueen. simpl.
    rewrite getAllBees_none.
    + rewrite Hb2, Hhive. simpl. rewrite length_seq. by destruct n; [lia|].
    + intros p Hp. destruct (Hgrid p Hp) as (Hlt & Hb & _).
      rewrite Hf2; [done|]. rewrite Hh. simpl. lia.
Qed.

(** ** Hive.invade and the back-references *)

Lemma invade_forEach_consistent (h : Hive) (ents : list nat) (rnd : nat → Q) (wave : list nat) :
  ents ≠ [] → (∀ k, (0 <= rnd k)%Q ∧ (rnd k < 1)%Q) →
  ∀ (k : nat) (w : World),
    Forall (λ e, e < length (heap w)) ents →
    NoDup wave → (∀ b, b ∈ wave → b ∈ bees (getPlace w (hive_place h))) →
    bees_consistent w →
    ∃ w', invade_forEach h ents rnd k wave w = Ret tt w' ∧ bees_consistent w'.
Proof.
  intros Hne Hrnd. induction wave as [|bee rest IH]; intros k w Hents Hnd Hin Hc; simpl.
  - by exists w.
  - unfold invade_bee. destruct (Hrnd k) as [H0 H1].
    destruct (array_get_randIndex ents (rnd k) H0 H1 Hne) as (e & Hget & He).
    rewrite Hget. simpl.
    apply NoDup_cons in Hnd as [Hbee Hnd].
    assert (Hbin : bee ∈ bees (getPlace w (hive_place h))) by (apply Hin; by left).
    set (w1 := Place_removeBee (hive_place h) bee w).
    assert (Hc1 : bees_consistent w1) by by apply removeBee_consistent.
    assert (Hl1 : length (heap w1) = length (heap w)) by apply Place_removeBee_length.
    assert (He1 : e < length (heap w1)).
    { rewrite Hl1. rewrite Forall_forall in Hents. by apply Hents. }
    destruct (Place_addBee_spec e bee w1 He1) as (Hl2 & Hb2 & Hf2 & _).
    apply IH.
    + by rewrite Hl2, Hl1.
    + done.
    + intros b Hb.
      assert (Hbne : b ≠ bee) by (intros ->; done).
      assert (Hb1 : b ∈ bees (getPlace w1 (hive_place h))).
      { unfold w1. rewrite Place_removeBee_places, decide_True by done. simpl.
        destruct (Hc (hive_place h)) as [Hndh _].
        apply (remove_first_NoDup bee _ Hndh). split; [|done]. apply Hin. by right. }
      destruct (decide (hive_place h = e)) as [<-|Hhe].
      * rewrite Hb2. apply elem_of_app. by left.
      * by rewrite Hf2.
    + apply addBee_consistent; [done| |done].
      by apply Place_removeBee_clears.
Qed.

(** X16: scheduling a wave and releasing it keeps the arrays of bees and the
    back-references of the bees in agreement.  From a store where they agree
    and no identity in use is ahead of the counter, on a colony with at least
    one entrance, they agree after [addWave(t, n)] and again after the
    [invade] of turn [t], which returns. *)
Theorem addWave_invade_keep_consistency (t : Z) (n : nat) (h : Hive) (c : AntColony)
        (rnd : nat → Q) (w : World) :
  hive_place h < length (heap w) →
  Forall (λ e, e < length (heap w)) (beeEntrances c) →
  beeEntrances c ≠ [] →
  (∀ k, (0 <= rnd k)%Q ∧ (rnd k < 1)%Q) →
  bees_consistent w → (∀ p b, b ∈ bees (getPlace w p) → b < nextBee w) →
  bees_consistent (Hive_addWave t n h w).2 ∧
  ∃ wave w2, Hive_invade (Hive_addWave t n h w).1 c t rnd (Hive_addWave t n h w).2
             = Ret wave w2 ∧ bees_consistent w2.
Proof.
  intros Hhp Hents Hne Hrnd Hc Hfresh.
  pose proof (Hive_addWave_consistent t n h w Hhp Hc Hfresh) as Hc1.
  split; [done|].
  destruct (addWave_loop_spec h n [] w Hhp) as (w1 & Heq & Hl1 & Hb1 & _).
  rewrite app_nil_l in Heq. unfold Hive_addWave in *. rewrite Heq in *. simpl in *.
  set (h1 := mkHive (hive_place h) (beeArmor h) (beeDamage h)
                    (<[t := seq (nextBee w) n]> (waves h))).
  assert (Hlk : waves h1 !! t = Some (seq (nextBee w) n)) by apply lookup_insert_eq.
  destruct (invade_forEach_consistent h1 (beeEntrances c) rnd (seq (nextBee w) n)
              Hne Hrnd 0 w1) as (w2 & Hrun & Hc2).
  - by rewrite Hl1.
  - apply NoDup_seq.
  - intros b Hb. simpl. rewrite Hb1. apply elem_of_app. by right.
  - done.
  - exists (seq (nextBee w) n), w2. unfold Hive_invade. by rewrite Hlk, Hrun.
Qed.

(** ** The further statements on the example states *)

Lemma ex_world_no_bees (p : nat) : bees (getPlace ex_world p) = [].
Proof. do 4 (destruct p as [|p]; [vm_compute; reflexivity|]). vm_compute. reflexivity. Qed.

Lemma ex_world_consistent : bees_consistent ex_world.
Proof.
  intros p. rewrite ex_world_no_bees. split; [apply NoDup_nil_2|].
  intros b Hb. by apply elem_of_nil in Hb.
Qed.

Lemma ex_world_one_bee_consistent : bees_consistent ex_world_one_bee.
Proof.
  apply addBee_consistent; [vm_compute; lia|vm_compute; reflexivity|].
  apply ex_world_consistent.
Qed.

Lemma removeBee_first_occurrence_witness :
  1 < length (heap ex_world_one_bee) ∧
  bees (getPlace ex_world_one_bee 1) = [] ++ 7 :: [] ∧
  bees (getPlace (Place_removeBee 1 7 ex_world_one_bee) 1) = [] ++ [] ∧
  bee_place (beeState (Place_removeBee 1 7 ex_world_one_bee) 7) = None.
Proof.
  assert (Hp : 1 < length (heap ex_world_one_bee)) by (vm_compute; lia).
  assert (Hl : bees (getPlace ex_world_one_bee 1) = [] ++ 7 :: []) by (vm_compute; reflexivity).
  destruct (removeBee_first_occurrence 1 7 ex_world_one_bee) as (_ & Hrem).
  destruct (Hrem Hp [] [] Hl) as (Hb & Hback & _); [apply not_elem_of_nil|].
  split; [exact Hp|]. split; [exact Hl|]. split; [exact Hb|exact Hback].
Defined.

Lemma addBee_removeBee_round_trip_witness :
  1 < length (heap ex_world) ∧
  heap (Place_removeBee 1 7 (Place_addBee 1 7 ex_world)) = heap ex_world.
Proof.
  assert (Hp : 1 < length (heap ex_world)) by (vm_compute; lia).
  assert (Hb : 7 ∉ bees (getPlace ex_world 1)).
  { rewrite ex_world_no_bees. apply not_elem_of_nil. }
  destruct (addBee_removeBee_round_trip 1 7 ex_world Hp Hb) as (_ & _ & Hheap & _).
  split; [exact Hp|exact Hheap].
Defined.

Lemma removeAllBees_clears_witness :
  7 ∈ bees (getPlace ex_world_bees 2) ∧
  bees (getPlace (Place_removeAllBees 2 ex_world_bees) 2) = [] ∧
  bee_place (beeState (Place_removeAllBees 2 ex_world_bees) 7) = None.
Proof.
  assert (Hin : 7 ∈ bees (getPlace ex_world_bees 2)) by (vm_compute; by left).
  destruct (removeAllBees_clears 2 ex_world_bees) as (Hb & _ & _ & _ & Hback & _).
  split; [exact Hin|]. split; [exact Hb|exact (Hback 7 Hin)].
Defined.

Lemma exitBee_moves_or_throws_witness :
  exit (getPlace ex_world_bees 2) = Some 1 ∧
  ∃ w', Place_exitBee 2 7 ex_world_bees = Ret tt w' ∧
        bees (getPlace w' 1) = bees (getPlace ex_world_bees 1) ++ [7] ∧
        bee_place (beeState w' 7) = Some 1.
Proof.
  assert (He : exit (getPlace ex_world_bees 2) = Some 1) by (vm_compute; reflexivity).
  destruct (exitBee_moves_or_throws 2 7 ex_world_bees) as (_ & Hmove).
  destruct (Hmove 1 He) as (w' & Hrun & _ & Hb & Hback & _); [vm_compute; lia|lia|].
  split; [exact He|]. exists w'. split; [exact Hrun|]. split; [exact Hb|exact Hback].
Defined.

Lemma exitBee_into_queen_loses_witness :
  exit (getPlace ex_world_one_bee 1) = Some (queenPlace ex_colony) ∧
  ∃ w', Place_exitBee 1 7 ex_world_one_bee = Ret tt w' ∧
        AntGame_gameIsWon (new_AntGame ex_colony ex_hive) w' = Some false.
Proof.
  assert (He : exit (getPlace ex_world_one_bee 1) = Some (queenPlace ex_colony))
    by (vm_compute; reflexivity).
  split; [exact He|].
  apply (exitBee_into_queen_loses (new_AntGame ex_colony ex_hive) 1 7 ex_world_one_bee He).
  vm_compute. lia.
Defined.

Lemma bee_moves_keep_consistency_witness :
  bees_consistent ex_world_one_bee ∧
  bees_consistent (Place_removeBee 1 7 ex_world_one_bee) ∧
  bees_consistent (Place_removeAllBees 1 ex_world_one_bee).
Proof.
  destruct (bee_moves_keep_consistency ex_world_one_bee ex_world_one_bee_consistent)
    as (Hrem & Hall & _).
  split; [exact ex_world_one_bee_consistent|]. split; [apply Hrem|apply Hall].
Defined.

Lemma removeAnt_guard_then_regular_witness :
  heap ex_world_guarded !! 1 = Some (getPlace ex_world_guarded 1) ∧
  (Place_removeAnt 1 ex_world_guarded).1 = Place_getAnt 1 ex_world_guarded ∧
  ant (getPlace (Place_removeAnt 1 (Place_removeAnt 1 ex_world_guarded).2).2 1) = None.
Proof.
  assert (H : heap ex_world_guarded !! 1 = Some (getPlace ex_world_guarded 1))
    by (vm_compute; reflexivity).
  destruct (removeAnt_guard_then_regular 1 ex_world_guarded _ H) as (Hfirst & _ & _ & Hant & _).
  split; [exact H|]. split; [exact Hfirst|exact Hant].
Defined.

Lemma deployAnt_then_removeAnt_witness :
  heap ex_world !! 1 = Some (getPlace ex_world 1) ∧
  (getFoodCost ex_thrower ≤ food ex_colony)%Z ∧
  ∃ w', AntColony_deployAnt ex_thrower 1 ex_colony ex_world = (None, set_food 6 ex_colony, w') ∧
        (Place_removeAnt 1 w').1 = Some ex_thrower ∧
        heap (AntColony_removeAnt 1 w') = heap ex_world.
Proof.
  assert (H : heap ex_world !! 1 = Some (getPlace ex_world 1)) by (vm_compute; reflexivity).
  assert (Hf : (getFoodCost ex_thrower ≤ food ex_colony)%Z) by (vm_compute; discriminate).
  destruct (deployAnt_then_removeAnt ex_thrower 1 ex_colony ex_world _ H Hf)
    as (w' & Hrun & Hback & _); [vm_compute; reflexivity|].
  destruct Hback as (Hant & Hheap); [right; vm_compute; reflexivity|].
  split; [exact H|]. split; [exact Hf|].
  exists w'. split; [exact Hrun|]. split; [exact Hant|exact Hheap].
Defined.

Lemma deployAnt_twice_witness :
  heap ex_world !! 1 = Some (getPlace ex_world 1) ∧
  ∃ w1, AntColony_deployAnt ex_thrower 1 ex_colony ex_world = (None, set_food 6 ex_colony, w1) ∧
        AntColony_deployAnt ex_eater 1 (set_food 6 ex_colony) w1
        = (Some "tunnel already occupied", set_food 6 ex_colony, w1).
Proof.
  assert (H : heap ex_world !! 1 = Some (getPlace ex_world 1)) by (vm_compute; reflexivity).
  destruct (deployAnt_twice ex_thrower ex_eater 1 ex_colony ex_world _ H)
    as (w1 & Hrun & Hsame & _);
    [vm_compute; reflexivity|vm_compute; reflexivity
    |vm_compute; discriminate|vm_compute; discriminate|].
  split; [exact H|]. exists w1. split; [exact Hrun|].
  apply Hsame. vm_compute. reflexivity.
Defined.

(** In the one-tunnel colony [addBoost] of 'BugSpray', of count 0, makes the
    count 1 and the boost applicable, while [addBoost] of 'toString' stores no
    count. *)
Lemma addBoost_counts_witness :
  counts_nonneg ex_colony ∧
  boosts_get (boosts ex_colony) "BugSpray" = Some (Count 0) ∧
  boosts_get (boosts (AntColony_addBoost "BugSpray" ex_colony)) "BugSpray" = Some (Count 1) ∧
  (AntColony_applyBoost "BugSpray" 1 (AntColony_addBoost "BugSpray" ex_colony) ex_world).1.1
    ≠ Some "no such boost" ∧
  boosts_get (boosts ex_colony) "toString" = Some NotANumber ∧
  boosts_get (boosts (AntColony_addBoost "toString" ex_colony)) "toString" = Some NotANumber ∧
  boosts_get (boosts ex_colony) "Honey" = None ∧
  boosts_get (boosts (AntColony_addBoost "Honey" ex_colony)) "Honey" = Some (Count 1).
Proof.
  destruct (addBoost_counts "BugSpray" ex_colony)
    as (Hb & _ & _ & _ & _ & _ & _ & _ & _ & _ & _ & Hnew & Happly).
  destruct (addBoost_counts "toString" ex_colony) as (_ & _ & Hfn & _).
  destruct (addBoost_counts "Honey" ex_colony) as (_ & Hundef & _).
  assert (Hc : counts_nonneg ex_colony) by apply (Hnew 10%Z 1 2 2%Z empty_world).
  assert (Hspray : boosts_get (boosts ex_colony) "BugSpray" = Some (Count 0))
    by (vm_compute; reflexivity).
  assert (Htos : boosts_get (boosts ex_colony) "toString" = Some NotANumber)
    by (vm_compute; reflexivity).
  assert (Hhoney : boosts_get (boosts ex_colony) "Honey" = None)
    by (vm_compute; reflexivity).
  split; [exact Hc|]. split; [exact Hspray|].
  split; [exact (proj1 (Hb 0%Z Hspray))|].
  split; [exact (Happly Hc 1 ex_world)|].
  split; [exact Htos|]. split; [exact (proj1 (Hfn Htos))|].
  split; [exact Hhoney|]. exact (proj1 (Hundef Hhoney)).
Defined.

Lemma placesAct_washes_grid_witness :
  2 ∈ all_places ex_colony ∧ water (getPlace ex_world_water 2) = true ∧
  guard (getPlace (AntColony_placesAct ex_colony ex_world_water) 2) = None.
Proof.
  assert (Hin : 2 ∈ all_places ex_colony) by (vm_compute; right; left).
  assert (Hw : water (getPlace ex_world_water 2) = true) by (vm_compute; reflexivity).
  destruct (placesAct_washes_grid ex_colony ex_world_water) as (Hwash & _).
  destruct (Hwash 2 Hin Hw) as (Hg & _).
  split; [exact Hin|]. split; [exact Hw|exact Hg].
Defined.

Lemma getClosestBee_range_witness :
  (1 ≤ 3)%Z ∧ Place_getClosestBee 1 1 0 ex_world_bees = Some 7 ∧
  Place_getClosestBee 1 3 0 ex_world_bees = Some 7.
Proof.
  assert (Hle : (1 ≤ 3)%Z) by lia.
  assert (Hrun : Place_getClosestBee 1 1 0 ex_world_bees = Some 7) by (vm_compute; reflexivity).
  destruct (getClosestBee_range 1 0 ex_world_bees) as (Hext & _).
  split; [exact Hle|]. split; [exact Hrun|exact (Hext 1%Z 3%Z 7 Hle Hrun)].
Defined.

Lemma ex_world_shape :
  hive_place ex_hive < length (heap ex_world) ∧
  Forall (λ e, e < length (heap ex_world)) (beeEntrances ex_colony) ∧
  (hive_place ex_hive ∉ beeEntrances ex_colony) ∧
  Forall (λ b, b < nextBee ex_world) (bees (getPlace ex_world (hive_place ex_hive))) ∧
  beeEntrances ex_colony ≠ [].
Proof. apply (constructed_game_shape 10 1 2 2 3 1 empty_world); lia. Qed.

Lemma addWave_schedules_witness :
  hive_place ex_hive < length (heap ex_world) ∧
  waves (Hive_addWave 5 3 ex_hive ex_world).1 !! 5%Z = Some (seq (nextBee ex_world) 3) ∧
  nextBee (Hive_addWave 5 3 ex_hive ex_world).2 = nextBee ex_world + 3.
Proof.
  destruct ex_world_shape as (Hhp & _).
  destruct (addWave_schedules 5 3 ex_hive ex_world Hhp) as (Hw & _ & _ & _ & _ & Hn & _).
  split; [exact Hhp|]. split; [exact Hw|exact Hn].
Defined.

Lemma addWave_twice_strands_first_wave_witness :
  beeEntrances ex_colony ≠ [] ∧
  ∃ w3, Hive_invade (Hive_addWave 5 1 (Hive_addWave 5 2 ex_hive ex_world).1
                                  (Hive_addWave 5 2 ex_hive ex_world).2).1
                    ex_colony 5 zero_random
                    (Hive_addWave 5 1 (Hive_addWave 5 2 ex_hive ex_world).1
                                  (Hive_addWave 5 2 ex_hive ex_world).2).2
        = Ret (seq (nextBee ex_world + 2) 1) w3 ∧
        bees (getPlace w3 (hive_place ex_hive))
        = bees (getPlace ex_world (hive_place ex_hive)) ++ seq (nextBee ex_world) 2.
Proof.
  destruct ex_world_shape as (Hhp & Hents & Hhive & Hfresh & Hne).
  destruct (addWave_twice_strands_first_wave 5 2 1 ex_hive ex_colony zero_random ex_world
              Hhp Hents Hhive Hfresh zero_random_range Hne) as (w3 & Hrun & Hpen & _).
  split; [exact Hne|]. exists w3. split; [exact Hrun|exact Hpen].
Defined.

Lemma new_game_is_empty_witness :
  0 < 2 ∧
  AntColony_getAllBees ex_colony ex_world = [] ∧
  AntGame_gameIsWon (new_AntGame ex_colony ex_hive) ex_world = Some true.
Proof.
  assert (HL : 0 < 2) by lia.
  destruct (new_game_is_empty 10 1 2 2 3 1 empty_world HL) as (_ & _ & _ & Hb & Hwon & _).
  split; [exact HL|]. split; [exact Hb|exact Hwon].
Defined.

Lemma addWave_invade_keep_consistency_witness :
  bees_consistent ex_world ∧
  bees_consistent (Hive_addWave 5 3 ex_hive ex_world).2 ∧
  ∃ wave w2, Hive_invade (Hive_addWave 5 3 ex_hive ex_world).1 ex_colony 5 zero_random
                         (Hive_addWave 5 3 ex_hive ex_world).2 = Ret wave w2 ∧
             bees_consistent w2.
Proof.
  destruct ex_world_shape as (Hhp & Hents & _ & _ & Hne).
  assert (Hfresh : ∀ p b, b ∈ bees (getPlace ex_world p) → b < nextBee ex_world).
  { intros p b Hb. rewrite ex_world_no_bees in Hb. by apply elem_of_nil in Hb. }
  destruct (addWave_invade_keep_consistency 5 3 ex_hive ex_colony zero_random ex_world
              Hhp Hents Hne zero_random_range ex_world_consistent Hfresh) as (Hc1 & Hinv).
  split; [exact ex_world_consistent|]. split; [exact Hc1|exact Hinv].
Defined.
